(** * Redis connector: stream iterator, decoder and destination writer

    A shallow embedding of the Go sources of the connector (the packages
    [iterator], [source] and [destination]) together with the properties of
    its specification.

    Conventions.
    - A Go [string] and a Go [[]byte] are both a Rocq [string] (a sequence of
      bytes).
    - A Go [error] is a value of [error]; the Go [nil] error is [None] of
      [option error].
    - A Go function that may fault at run time (index out of range, method
      call on a nil interface) returns in [go], whose second constructor is
      the fault.
    - A value of type [interface{}] received from the redigo client is a
      [reply]. *)

From Stdlib Require Import ZArith NArith List String Ascii Bool Lia DecimalString.
From stdpp Require Import base option list gmap strings sorting.

Set Warnings "-register-all,-clear-no-such-hyp".

Local Open Scope string_scope.
Local Open Scope nat_scope.

(** ** Go run-time outcomes *)

Inductive go (A : Type) : Type :=
  | Ret (a : A)
  | Panic (msg : string).
Arguments Ret {A} a.
Arguments Panic {A} msg.

Definition go_bind {A B} (c : go A) (k : A -> go B) : go B :=
  match c with
  | Ret a => k a
  | Panic msg => Panic msg
  end.

Notation "'do*' x <- c ; k" := (go_bind c (fun x => k))
  (at level 10, x pattern, c at level 100, k at level 200).

Definition index_out_of_range : string := "runtime error: index out of range".
Definition nil_dereference : string :=
  "runtime error: invalid memory address or nil pointer dereference".

(** ** Errors *)

(** [ErrSentinel] is a package-level error variable compared with [==]
    ([redis.ErrNil], [tomb.ErrStillAlive], ...); [ErrNew] is [errors.New] or a
    [fmt.Errorf] without [%w]; [ErrWrap prefix cause] is
    [fmt.Errorf(prefix + "%w", cause)]. *)
Inductive error : Type :=
  | ErrSentinel (name : string)
  | ErrNew (msg : string)
  | ErrWrap (prefix : string) (cause : error).

Fixpoint error_message (e : error) : string :=
  match e with
  | ErrSentinel name => name
  | ErrNew msg => msg
  | ErrWrap prefix cause => prefix ++ error_message cause
  end.

Fixpoint error_beq (a b : error) : bool :=
  match a, b with
  | ErrSentinel x, ErrSentinel y => String.eqb x y
  | ErrNew x, ErrNew y => String.eqb x y
  | ErrWrap p x, ErrWrap q y => String.eqb p q && error_beq x y
  | _, _ => false
  end.

Definition redis_ErrNil : error := ErrSentinel "redigo: nil returned".

(** [%d] of a non-negative int. *)
Definition fmt_d (n : nat) : string := NilEmpty.string_of_uint (Nat.to_uint n).

(** ** Replies of the redigo client *)

Inductive reply : Type :=
  | RNil
  | RInt (n : Z)
  | RStr (s : string)
  | RBulk (b : string)
  | RArr (l : list reply)
  | RError (msg : string).

(** [%T] of a reply. *)
Definition fmt_T (r : reply) : string :=
  match r with
  | RNil => "<nil>"
  | RInt _ => "int64"
  | RStr _ => "string"
  | RBulk _ => "[]uint8"
  | RArr _ => "[]interface {}"
  | RError _ => "redis.Error"
  end.

Definition T_bytes : string := "[]uint8".
Definition T_array : string := "[]interface {}".

(** [redis.Values(reply, err)]. *)
Definition redis_Values (r : reply + error) : list reply * option error :=
  match r with
  | inr err => ([], Some err)
  | inl (RArr l) => (l, None)
  | inl RNil => ([], Some redis_ErrNil)
  | inl (RError msg) => ([], Some (ErrNew msg))
  | inl r => ([], Some (ErrNew ("redigo: unexpected type for Values, got type " ++ fmt_T r)))
  end.

(** [redis.String(reply, err)]. *)
Definition redis_String (r : reply + error) : string * option error :=
  match r with
  | inr err => ("", Some err)
  | inl (RBulk b) => (b, None)
  | inl (RStr s) => (s, None)
  | inl RNil => ("", Some redis_ErrNil)
  | inl (RError msg) => ("", Some (ErrNew msg))
  | inl r => ("", Some (ErrNew ("redigo: unexpected type for String, got type " ++ fmt_T r)))
  end.

(** ** Records *)

(** The metadata map that [toRecords] builds holds the stream key and the
    creation time; [md_createdAt] is the [time.Time] last given to
    [SetCreatedAt], in Unix milliseconds. *)
Record metadata : Type := Metadata {
  md_key : string;
  md_createdAt : option Z
}.

(** [opencdc.Record].  A Go map is a reference: a record holds the address of
    its metadata map ([None] for a nil map).  [PayloadAfter] is
    [Payload.After], a value of the interface [opencdc.Data]: [None] is the
    nil interface (a record without an After payload, such as a delete
    record or [opencdc.Record{}]), [Some b] a value whose [Bytes()] returns
    [b]. *)
Record record : Type := MkRecord {
  Position : string;
  MetadataRef : option nat;
  Key : string;
  PayloadAfter : option string
}.

(** [opencdc.Record{}]. *)
Definition zero_record : record := MkRecord "" None "" None.

(** [payload.Bytes()] on a value of [opencdc.Data]: a method call on the nil
    interface faults. *)
Definition Data_Bytes (payload : option string) : go string :=
  match payload with
  | Some b => Ret b
  | None => Panic nil_dereference
  end.

Definition has_payload (r : record) : bool :=
  match PayloadAfter r with
  | Some _ => true
  | None => false
  end.

(** ** Decoding of the XREAD response (stream.go) *)

Module Decode.

Section WithLibraries.

(** [encoding/json]'s encoder of a string literal, and the wall clock:
    [now n] is what the [n]-th call of [time.Now().UnixMilli()] of one
    decoding returns. *)
Variable json_quote : string -> string.
Variable now : nat -> Z.

(** *** arrInterfaceToMap *)

Definition err_odd_values (n : nat) : error :=
  ErrNew ("arrInterfaceToMap expects even number of values result, got " ++ fmt_d n).
Definition err_key_not_bulk (i : nat) (v : reply) : error :=
  ErrNew ("arrInterfaceToMap key[" ++ fmt_d i ++ "] not a bulk string value, got " ++ fmt_T v).
Definition err_value_not_bulk (i : nat) (v : reply) : error :=
  ErrNew ("arrInterfaceToMap value[" ++ fmt_d i ++ "] not a bulk string value, got " ++ fmt_T v).

(** The loop [for i := 0; i < len(values); i += 2], started at index [i] on
    the elements from [i] on. *)
Fixpoint arrInterfaceToMap_loop (i : nat) (values : list reply) (m : gmap string string)
  : go (gmap string string * option error) :=
  match values with
  | [] => Ret (m, None)
  | k :: rest =>
    match k with
    | RBulk key =>
      match rest with
      | [] => Panic index_out_of_range
      | v :: rest' =>
        match v with
        | RBulk value => arrInterfaceToMap_loop (i + 2) rest' (<[key := value]> m)
        | _ => Ret (∅, Some (err_value_not_bulk (i + 1) v))
        end
      end
    | _ => Ret (∅, Some (err_key_not_bulk i k))
    end
  end.

Definition arrInterfaceToMap (values : list reply) : go (gmap string string * option error) :=
  if negb (length values mod 2 =? 0) then
    Ret (∅, Some (err_odd_values (length values)))
  else arrInterfaceToMap_loop 0 values ∅.

(** The (name, value) pairs of a field list of bulk strings, in order. *)
Fixpoint field_pairs (values : list reply) : list (string * string) :=
  match values with
  | RBulk k :: RBulk v :: rest => (k, v) :: field_pairs rest
  | _ => []
  end.

(** The names of a field list, in order, duplicates included. *)
Definition field_names (values : list reply) : list string :=
  List.map fst (field_pairs values).

(** The value that the last occurrence of [name] carries. *)
Definition last_value (name : string) (values : list reply) : option string :=
  option_map snd (List.find (fun kv => String.eqb kv.1 name) (rev (field_pairs values))).

(** *** json.Marshal of a map[string]string: keys in sorted order *)

Definition key_le (a b : string * string) : Prop := String.leb a.1 b.1 = true.
#[local] Instance key_le_dec : RelDecision key_le.
Proof. intros a b. unfold key_le. apply _. Defined.

Definition sorted_entries (m : gmap string string) : list (string * string) :=
  merge_sort key_le (map_to_list m).

Definition json_member (kv : string * string) : string :=
  json_quote kv.1 ++ ":" ++ json_quote kv.2.

Fixpoint join_comma (l : list string) : string :=
  match l with
  | [] => ""
  | [x] => x
  | x :: rest => x ++ "," ++ join_comma rest
  end.

Definition json_Marshal (m : gmap string string) : string :=
  "{" ++ join_comma (List.map json_member (sorted_entries m)) ++ "}".

(** *** getTimeFromPosition *)

(** [strings.Split(pos, "-")[0]]: the part before the first dash. *)
Fixpoint before_dash (pos : string) : string :=
  match pos with
  | EmptyString => EmptyString
  | String c rest => if Ascii.eqb c "-" then EmptyString else String c (before_dash rest)
  end.

Definition digit_of (c : ascii) : option Z :=
  let n := nat_of_ascii c in
  if (48 <=? n) && (n <=? 57) then Some (Z.of_nat (n - 48)) else None.

Fixpoint parse_digits (s : string) (acc : Z) : option Z :=
  match s with
  | EmptyString => Some acc
  | String c rest =>
    match digit_of c with
    | Some d => parse_digits rest (10 * acc + d)%Z
    | None => None
    end
  end.

Definition int64_min : Z := (- 2 ^ 63)%Z.
Definition int64_max : Z := (2 ^ 63 - 1)%Z.

(** [strconv.ParseInt(s, 10, 64)]; [None] is a non-nil error. *)
Definition strconv_ParseInt (s : string) : option Z :=
  let '(neg, body) :=
    match s with
    | String c rest =>
      if Ascii.eqb c "+" then (false, rest)
      else if Ascii.eqb c "-" then (true, rest)
      else (false, s)
    | EmptyString => (false, s)
    end in
  match body with
  | EmptyString => None
  | _ =>
    match parse_digits body 0 with
    | Some n =>
      let v := if neg then (- n)%Z else n in
      if ((int64_min <=? v) && (v <=? int64_max))%Z then Some v else None
    | None => None
    end
  end.

(** Returns the time in Unix milliseconds and the number of clock readings
    made so far. *)
Definition getTimeFromPosition (pos : string) (clock : nat) : Z * nat :=
  match strconv_ParseInt (before_dash pos) with
  | Some ts => if (ts =? 0)%Z then (now clock, S clock) else (ts, clock)
  | None => (now clock, S clock)
  end.

(** *** parseKeyData and parsePositionData *)

Definition parseKeyData (d : reply) : go (string * list reply * option error) :=
  match d with
  | RArr keyInfo =>
    match keyInfo !! 0 with
    | None => Panic index_out_of_range
    | Some (RBulk key) =>
      match keyInfo !! 1 with
      | None => Panic index_out_of_range
      | Some (RArr idList) => Ret (key, idList, None)
      | Some k1 =>
        Ret ("", [], Some (ErrNew ("keyInfo[0]:invalid data type encountered, expected:"
                                   ++ T_array ++ ", got:" ++ fmt_T k1)))
      end
    | Some k0 =>
      Ret ("", [], Some (ErrNew ("keyInfo[0]: invalid data type encountered, expected:"
                                 ++ T_bytes ++ ", got:" ++ fmt_T k0)))
    end
  | _ =>
    Ret ("", [], Some (ErrNew ("iKey: invalid data type encountered, expected:"
                               ++ T_array ++ ", got:" ++ fmt_T d)))
  end.

Definition parsePositionData (i : reply) : go (string * list reply * option error) :=
  match i with
  | RArr idInfo =>
    match idInfo !! 0 with
    | None => Panic index_out_of_range
    | Some (RBulk position) =>
      match idInfo !! 1 with
      | None => Panic index_out_of_range
      | Some (RArr fieldList) => Ret (position, fieldList, None)
      | Some i1 =>
        Ret ("", [], Some (ErrNew ("idInfo[1]:invalid data type encountered, expected:"
                                   ++ fmt_T i1 ++ ", got:" ++ T_array)))
      end
    | Some i0 =>
      Ret ("", [], Some (ErrNew ("idInfo[0]:error invalid id type received "
                                 ++ fmt_T i0 ++ " expected: " ++ T_bytes)))
    end
  | _ =>
    Ret ("", [], Some (ErrNew ("iID:invalid data type encountered, expected:"
                               ++ T_array ++ ", got:" ++ fmt_T i)))
  end.

(** *** toRecords *)

(** The local state of [toRecords]: the slice built so far, the metadata
    maps allocated so far, and the number of clock readings. *)
Record decoder : Type := MkDecoder {
  records : list record;
  mdheap : list metadata;
  clock : nat
}.

Definition decoder_init : decoder := MkDecoder [] [] 0.

(** [return nil, err]. *)
Definition return_nil (st : decoder) : decoder := MkDecoder [] (mdheap st) (clock st).

Definition SetCreatedAt (ref : nat) (t : Z) (heap : list metadata) : list metadata :=
  alter (fun md => Metadata (md_key md) (Some t)) ref heap.

Definition err_to_map : string := "error converting the []interface{} to map: ".

(** The loop over the entries of one key; [ref] is the address of the
    key's metadata map.  [json.Marshal] has no error on a
    [map[string]string], so that branch of the source is never taken. *)
Fixpoint toRecords_ids (key : string) (ref : nat) (idList : list reply) (st : decoder)
  : go (decoder * option error) :=
  match idList with
  | [] => Ret (st, None)
  | iID :: rest =>
    do* (position, fieldList, err) <- parsePositionData iID;
    match err with
    | Some e => Ret (return_nil st, Some e)
    | None =>
      do* (rMap, err) <- arrInterfaceToMap fieldList;
      match err with
      | Some e => Ret (st, Some (ErrWrap err_to_map e))
      | None =>
        let payload := json_Marshal rMap in
        let '(t, clock') := getTimeFromPosition position (clock st) in
        toRecords_ids key ref rest
          (MkDecoder (records st ++ [MkRecord position (Some ref) key (Some payload)])
                     (SetCreatedAt ref t (mdheap st))
                     clock')
      end
    end
  end.

Fixpoint toRecords_keys (resp : list reply) (st : decoder) : go (decoder * option error) :=
  match resp with
  | [] => Ret (st, None)
  | iKey :: rest =>
    do* (key, idList, err) <- parseKeyData iKey;
    match err with
    | Some e => Ret (return_nil st, Some e)
    | None =>
      let ref := length (mdheap st) in
      let st1 := MkDecoder (records st) (mdheap st ++ [Metadata key None]) (clock st) in
      do* (st2, err) <- toRecords_ids key ref idList st1;
      match err with
      | Some e => Ret (st2, Some e)
      | None => toRecords_keys rest st2
      end
    end
  end.

Definition toRecords (resp : list reply) : go (list record * option error) :=
  do* (st, err) <- toRecords_keys resp decoder_init;
  Ret (records st, err).

(** The metadata maps behind the records of [toRecords resp]. *)
Definition toRecords_heap (resp : list reply) : go (list metadata) :=
  do* (st, _) <- toRecords_keys resp decoder_init;
  Ret (mdheap st).

End WithLibraries.

End Decode.

(** ** JSON values as [encoding/json] decodes them into [interface{}] *)

Inductive jvalue : Type :=
  | JNull
  | JBool (b : bool)
  | JNumber (literal : string)
  | JString (s : string)
  | JArray (l : list jvalue)
  | JObject (members : list (string * jvalue)).

(** ** The redigo connection *)

(** An argument of a command. [AArgs] is a whole argument slice passed as one
    argument. *)
Inductive arg : Type :=
  | AStr (s : string)
  | AInt (n : Z)
  | AJson (v : jvalue)
  | AArgs (l : list arg).

Record command : Type := Cmd {
  cmd_name : string;
  cmd_args : list arg
}.

(** [redis.Conn] is an interface; a connection is modelled by what it answers:
    [answers n] is the outcome of the [n]-th call of [Do] (or [DoContext]),
    [sent] the commands issued so far (latest last), [with_context] whether
    the connection implements [redis.ConnWithContext], [close_answer] the
    outcome of [Close], and [closed] the number of calls of [Close].  A
    property stated for every [answers] holds whatever the store does. *)
Record conn : Type := Conn {
  answers : nat -> reply + error;
  sent : list command;
  with_context : bool;
  close_answer : option error;
  closed : nat
}.

Definition conn_Do (c : conn) (name : string) (args : list arg) : (reply + error) * conn :=
  (answers c (length (sent c)),
   Conn (answers c) (sent c ++ [Cmd name args]) (with_context c) (close_answer c) (closed c)).

Definition conn_Close (c : conn) : option error * conn :=
  (close_answer c,
   Conn (answers c) (sent c) (with_context c) (close_answer c) (S (closed c))).

(** What the store answers when the next command asks the type of a key, and
    whether that is one of the two types stream mode accepts. *)
Definition type_answer (c : conn) : string * option error :=
  redis_String (answers c (length (sent c))).

Definition type_accepted (c : conn) : Prop :=
  exists keyType,
    type_answer c = (keyType, None) /\ (keyType = "none" \/ keyType = "stream").

(** ** gopkg.in/tomb.v2 *)

Module Tomb.

(** The reason of a tomb: [StillAlive] is [ErrStillAlive]; [Reason r] is set by
    the first [Kill], [r = None] being a nil reason. *)
Inductive reason : Type :=
  | StillAlive
  | Reason (r : option error).

Record t : Type := MkTomb {
  alive : nat;
  why : reason
}.

Definition ErrStillAlive : error := ErrSentinel "tomb: still alive".

Definition Err (tb : t) : option error :=
  match why tb with
  | StillAlive => Some ErrStillAlive
  | Reason r => r
  end.

Definition Alive (tb : t) : bool :=
  match why tb with
  | StillAlive => true
  | Reason _ => false
  end.

(** The channel [Dying()] is closed. *)
Definition Dying (tb : t) : bool := negb (Alive tb).

Definition Kill (r : option error) (tb : t) : t :=
  match why tb with
  | StillAlive => MkTomb (alive tb) (Reason r)
  | Reason None => MkTomb (alive tb) (Reason r)
  | Reason (Some _) => tb
  end.

(** [Go(f)]: one more tracked goroutine. *)
Definition Go (tb : t) : t := MkTomb (S (alive tb)) (why tb).

(** A tracked goroutine returned [err]. *)
Definition run_returned (err : option error) (tb : t) : t :=
  let tb' := MkTomb (pred (alive tb)) (why tb) in
  if (alive tb' =? 0) || (if err is Some _ then true else false)
  then Kill err tb' else tb'.

End Tomb.

(** ** Go channels *)

Record chan (A : Type) : Type := Chan {
  items : list A;
  cap : nat;
  chan_closed : bool
}.
Arguments Chan {A} items cap chan_closed.
Arguments items {A} c.
Arguments cap {A} c.
Arguments chan_closed {A} c.

Definition make_chan {A} (n : nat) : chan A := Chan [] n false.

(** A send on a buffered channel proceeds when the buffer has room. *)
Definition can_send {A} (c : chan A) : bool := length (items c) <? cap c.

Definition chan_send {A} (x : A) (c : chan A) : chan A :=
  Chan (items c ++ [x]) (cap c) (chan_closed c).

Definition chan_close {A} (c : chan A) : chan A := Chan (items c) (cap c) true.

(** [len(c)]. *)
Definition chan_len {A} (c : chan A) : nat := length (items c).

(** ** The stream iterator (stream.go) *)

Module Stream.

Definition keyTypeNone : string := "none".
Definition keyTypeStream : string := "stream".

(** [time.Ticker]: [pending] is a tick waiting in the channel [C]. *)
Record Ticker : Type := MkTicker {
  ticker_stopped : bool;
  pending : bool
}.

Record StreamIterator : Type := MkStreamIterator {
  key : string;
  client : option conn;
  tomb : Tomb.t;
  lastID : string;
  recordsPerCall : nat;
  pollingInterval : Z;
  ticker : Ticker;
  caches : chan (list record);
  buffer : chan record
}.

Definition set_client (c : option conn) (i : StreamIterator) : StreamIterator :=
  MkStreamIterator (key i) c (tomb i) (lastID i) (recordsPerCall i)
    (pollingInterval i) (ticker i) (caches i) (buffer i).
Definition set_tomb (tb : Tomb.t) (i : StreamIterator) : StreamIterator :=
  MkStreamIterator (key i) (client i) tb (lastID i) (recordsPerCall i)
    (pollingInterval i) (ticker i) (caches i) (buffer i).
Definition set_lastID (id : string) (i : StreamIterator) : StreamIterator :=
  MkStreamIterator (key i) (client i) (tomb i) id (recordsPerCall i)
    (pollingInterval i) (ticker i) (caches i) (buffer i).
Definition set_ticker (tk : Ticker) (i : StreamIterator) : StreamIterator :=
  MkStreamIterator (key i) (client i) (tomb i) (lastID i) (recordsPerCall i)
    (pollingInterval i) tk (caches i) (buffer i).
Definition set_caches (c : chan (list record)) (i : StreamIterator) : StreamIterator :=
  MkStreamIterator (key i) (client i) (tomb i) (lastID i) (recordsPerCall i)
    (pollingInterval i) (ticker i) c (buffer i).
Definition set_buffer (b : chan record) (i : StreamIterator) : StreamIterator :=
  MkStreamIterator (key i) (client i) (tomb i) (lastID i) (recordsPerCall i)
    (pollingInterval i) (ticker i) (caches i) b.

(** Where the goroutine of [startIterator] stands: at the outer [select], at
    the inner [select] with the decoded [records] in hand, returned with an
    error value, gone (deferred [close] done), or stopped by a run-time
    fault. *)
Inductive poll_pc : Type :=
  | AtSelect
  | AtHandoff (records : list record)
  | Returned (err : option error)
  | Exited
  | Faulted (msg : string).

(** Where the goroutine of [flush] stands: at the outer [select], inside the
    [range] loop with the records still to push, returned, or gone. *)
Inductive flush_pc : Type :=
  | FAtSelect
  | FRange (rest : list record)
  | FReturned (err : option error)
  | FExited.

Inductive constructed : Type :=
  | Started (i : StreamIterator) (poll : poll_pc) (flush : flush_pc)
  | Failed (err : error) (client : conn).

Definition err_stopped : error := ErrNew "iterator stopped".

Section WithLibraries.

Variable json_quote : string -> string.
Variable now : nat -> Z.

Definition toRecords := Decode.toRecords json_quote now.

(** *** NewStreamIterator *)

Definition NewStreamIterator (client : conn) (key : string) (pollingInterval : Z)
    (position : string) : go constructed :=
  let '(r, client) := conn_Do client "TYPE" [AStr key] in
  let '(keyType, err) := redis_String r in
  match err with
  | Some e => Ret (Failed (ErrWrap ("error fetching type of key(" ++ key ++ "): ") e) client)
  | None =>
    if negb (String.eqb keyType keyTypeNone) && negb (String.eqb keyType keyTypeStream) then
      Ret (Failed (ErrNew ("invalid key type: " ++ keyType ++ ", expected none or stream")) client)
    else if (pollingInterval <=? 0)%Z then
      Panic "non-positive interval for NewTicker"
    else
      let lastID := if String.eqb position "" then "0-0" else position in
      let cdc := MkStreamIterator key (Some client) (Tomb.MkTomb 0 Tomb.StillAlive) lastID
                   1000 pollingInterval (MkTicker false false)
                   (make_chan 1) (make_chan 1) in
      let cdc := set_tomb (Tomb.Go (tomb cdc)) cdc in
      let cdc := set_tomb (Tomb.Go (tomb cdc)) cdc in
      Ret (Started cdc AtSelect FAtSelect)
  end.

(** *** HasNext and Stop *)

Definition HasNext (i : StreamIterator) : bool :=
  (0 <? chan_len (buffer i)) || negb (Tomb.Alive (tomb i)).

(** Returns the iterator, the error, and the connection as [Close] left
    it. *)
Definition Stop (i : StreamIterator) : go (StreamIterator * option error * conn) :=
  let i := set_ticker (MkTicker true (pending (ticker i))) i in
  let i := set_tomb (Tomb.Kill (Some err_stopped) (tomb i)) i in
  match client i with
  | None => Panic nil_dereference
  | Some c =>
    let '(err, c) := conn_Close c in
    match err with
    | Some e =>
      Ret (set_client (Some c) i, Some (ErrWrap "error closing the redis client: " e), c)
    | None => Ret (set_client None i, None, c)
    end
  end.

(** *** startIterator, branch by branch *)

(** [case <-i.ticker.C]: the read, the decoding, up to the inner [select]. *)
Definition poll_tick (i : StreamIterator) : StreamIterator * poll_pc :=
  match client i with
  | None => (i, Faulted nil_dereference)
  | Some c =>
    let '(r, c) := conn_Do c "XREAD"
                     [AStr "COUNT"; AInt (Z.of_nat (recordsPerCall i)); AStr "STREAMS";
                      AStr (key i); AStr (lastID i)] in
    let i := set_client (Some c) i in
    let '(resp, err) := redis_Values r in
    match err with
    | Some e =>
      if error_beq e redis_ErrNil then (i, AtSelect)
      else (i, Returned (Some (ErrWrap "error reading data from stream: " e)))
    | None =>
      match toRecords resp with
      | Panic msg => (i, Faulted msg)
      | Ret (_, Some e) =>
        (i, Returned (Some (ErrWrap "error converting stream data to records: " e)))
      | Ret (records, None) => (i, AtHandoff records)
      end
    end
  end.

(** [case i.caches <- records]: the send, then the cursor is set to
    [records[len(records)-1].Position]. *)
Definition poll_send (records : list record) (i : StreamIterator) : StreamIterator * poll_pc :=
  let i := set_caches (chan_send records (caches i)) i in
  match last records with
  | None => (i, Faulted index_out_of_range)
  | Some r => (set_lastID (Position r) i, AtSelect)
  end.

(** [case <-i.tomb.Dying(): return i.tomb.Err()], at either [select]. *)
Definition poll_dying (i : StreamIterator) : StreamIterator * poll_pc :=
  (i, Returned (Tomb.Err (tomb i))).

(** The function returned: [defer close(i.caches)], then the tomb's
    bookkeeping. *)
Definition poll_exit (err : option error) (i : StreamIterator) : StreamIterator * poll_pc :=
  let i := set_caches (chan_close (caches i)) i in
  (set_tomb (Tomb.run_returned err (tomb i)) i, Exited).

(** *** flush, branch by branch *)

Definition range_next (rest : list record) : flush_pc :=
  match rest with
  | [] => FAtSelect
  | _ => FRange rest
  end.

(** [case cache := <-i.caches]; a closed and empty channel gives the nil
    slice. *)
Definition flush_recv (i : StreamIterator) : StreamIterator * flush_pc :=
  match items (caches i) with
  | cache :: rest =>
    (set_caches (Chan rest (cap (caches i)) (chan_closed (caches i))) i, range_next cache)
  | [] => (i, FAtSelect)
  end.

(** [case i.buffer <- record]. *)
Definition flush_send (r : record) (rest : list record) (i : StreamIterator)
  : StreamIterator * flush_pc :=
  (set_buffer (chan_send r (buffer i)) i, range_next rest).

Definition flush_dying (i : StreamIterator) : StreamIterator * flush_pc :=
  (i, FReturned (Tomb.Err (tomb i))).

Definition flush_exit (err : option error) (i : StreamIterator) : StreamIterator * flush_pc :=
  let i := set_buffer (chan_close (buffer i)) i in
  (set_tomb (Tomb.run_returned err (tomb i)) i, FExited).

(** *** Next *)

(** [Next(ctx)] is one [select]: [Next ctx_done i i' rec err] holds when
    some ready branch takes [i] to [i'] and returns [(rec, err)];
    [ctx_done] is [Some e] when [ctx.Done()] is closed with [ctx.Err() = e]. *)
Inductive Next (ctx_done : option error)
  : StreamIterator -> StreamIterator -> record -> option error -> Prop :=
  | Next_record i rec rest :
      items (buffer i) = rec :: rest ->
      Next ctx_done i
        (set_buffer (Chan rest (cap (buffer i)) (chan_closed (buffer i))) i) rec None
  | Next_closed i :
      items (buffer i) = [] -> chan_closed (buffer i) = true ->
      Next ctx_done i i zero_record None
  | Next_dying i :
      Tomb.Dying (tomb i) = true ->
      Next ctx_done i i zero_record (Tomb.Err (tomb i))
  | Next_cancelled i e :
      ctx_done = Some e ->
      Next ctx_done i i zero_record (Some e).

(** *** The running pipeline *)

(** The iterator with its two goroutines. *)
Record pipeline : Type := MkPipeline {
  it : StreamIterator;
  poll : poll_pc;
  flush : flush_pc
}.

(** One atomic action of a goroutine, of the consumer, of the clock or of
    the parent context.  A [select] may take any of its ready branches. *)
Inductive step : pipeline -> pipeline -> Prop :=
  | step_clock i p f :
      ticker_stopped (ticker i) = false ->
      step (MkPipeline i p f) (MkPipeline (set_ticker (MkTicker false true) i) p f)
  | step_context_done i p f e :
      step (MkPipeline i p f) (MkPipeline (set_tomb (Tomb.Kill (Some e) (tomb i)) i) p f)
  | step_poll_tick i f i' p' :
      pending (ticker i) = true ->
      poll_tick (set_ticker (MkTicker (ticker_stopped (ticker i)) false) i) = (i', p') ->
      step (MkPipeline i AtSelect f) (MkPipeline i' p' f)
  | step_poll_dying i f i' p' :
      Tomb.Dying (tomb i) = true ->
      poll_dying i = (i', p') ->
      step (MkPipeline i AtSelect f) (MkPipeline i' p' f)
  | step_poll_send i f records i' p' :
      can_send (caches i) = true ->
      poll_send records i = (i', p') ->
      step (MkPipeline i (AtHandoff records) f) (MkPipeline i' p' f)
  | step_poll_handoff_dying i f records i' p' :
      Tomb.Dying (tomb i) = true ->
      poll_dying i = (i', p') ->
      step (MkPipeline i (AtHandoff records) f) (MkPipeline i' p' f)
  | step_poll_exit i f err i' p' :
      poll_exit err i = (i', p') ->
      step (MkPipeline i (Returned err) f) (MkPipeline i' p' f)
  | step_flush_recv i p i' f' :
      (items (caches i) <> [] \/ chan_closed (caches i) = true) ->
      flush_recv i = (i', f') ->
      step (MkPipeline i p FAtSelect) (MkPipeline i' p f')
  | step_flush_dying i p i' f' :
      Tomb.Dying (tomb i) = true ->
      flush_dying i = (i', f') ->
      step (MkPipeline i p FAtSelect) (MkPipeline i' p f')
  | step_flush_send i p r rest i' f' :
      can_send (buffer i) = true ->
      flush_send r rest i = (i', f') ->
      step (MkPipeline i p (FRange (r :: rest))) (MkPipeline i' p f')
  | step_flush_range_dying i p rest i' f' :
      Tomb.Dying (tomb i) = true ->
      flush_dying i = (i', f') ->
      step (MkPipeline i p (FRange rest)) (MkPipeline i' p f')
  | step_flush_exit i p err i' f' :
      flush_exit err i = (i', f') ->
      step (MkPipeline i p (FReturned err)) (MkPipeline i' p f')
  | step_Next i p f ctx_done i' rec err :
      Next ctx_done i i' rec err ->
      step (MkPipeline i p f) (MkPipeline i' p f)
  | step_Stop i p f i' err c :
      Stop i = Ret (i', err, c) ->
      step (MkPipeline i p f) (MkPipeline i' p f).

Inductive steps : pipeline -> pipeline -> Prop :=
  | steps_refl s : steps s s
  | steps_step s1 s2 s3 : steps s1 s2 -> step s2 s3 -> steps s1 s3.

(** The states a pipeline built by [NewStreamIterator] can be in. *)
Definition reachable (s : pipeline) : Prop :=
  exists client key pollingInterval position i p f,
    NewStreamIterator client key pollingInterval position = Ret (Started i p f) /\
    steps (MkPipeline i p f) s.

(** The decoded batches alive in the pipeline: the one the poll goroutine
    holds while it waits at the handoff, those in the batch channel, and the
    one the flush goroutine is unrolling. *)
Definition held_by_poll (p : poll_pc) : nat :=
  match p with
  | AtHandoff _ => 1
  | _ => 0
  end.

Definition held_by_flush (f : flush_pc) : nat :=
  match f with
  | FRange _ => 1
  | _ => 0
  end.

Definition pending_batches (s : pipeline) : nat := chan_len (caches (it s)).
Definition pending_records (s : pipeline) : nat := chan_len (buffer (it s)).

Definition batches_in_flight (s : pipeline) : nat :=
  held_by_poll (poll s) + pending_batches s + held_by_flush (flush s).

(** Both channels keep the capacity they were made with and hold no more
    than it. *)
Definition within_capacity (s : pipeline) : Prop :=
  cap (caches (it s)) = 1 /\ cap (buffer (it s)) = 1 /\
  pending_batches s <= 1 /\ pending_records s <= 1.

(** *** A scheduler *)

(** The actions of [step], and the function that performs one when it is
    enabled. *)
Inductive action : Type :=
  | Clock
  | ContextDone (e : error)
  | PollTick
  | PollDying
  | PollSend
  | PollExit
  | FlushRecv
  | FlushDying
  | FlushSend
  | FlushExit
  | ConsumerNext
  | CallStop.

Definition exec (a : action) (s : pipeline) : option pipeline :=
  let i := it s in
  match a with
  | Clock =>
    if ticker_stopped (ticker i) then None
    else Some (MkPipeline (set_ticker (MkTicker false true) i) (poll s) (flush s))
  | ContextDone e =>
    Some (MkPipeline (set_tomb (Tomb.Kill (Some e) (tomb i)) i) (poll s) (flush s))
  | PollTick =>
    match poll s with
    | AtSelect =>
      if pending (ticker i) then
        let '(i', p') := poll_tick (set_ticker (MkTicker (ticker_stopped (ticker i)) false) i) in
        Some (MkPipeline i' p' (flush s))
      else None
    | _ => None
    end
  | PollDying =>
    match poll s with
    | AtSelect | AtHandoff _ =>
      if Tomb.Dying (tomb i) then
        let '(i', p') := poll_dying i in Some (MkPipeline i' p' (flush s))
      else None
    | _ => None
    end
  | PollSend =>
    match poll s with
    | AtHandoff records =>
      if can_send (caches i) then
        let '(i', p') := poll_send records i in Some (MkPipeline i' p' (flush s))
      else None
    | _ => None
    end
  | PollExit =>
    match poll s with
    | Returned err =>
      let '(i', p') := poll_exit err i in Some (MkPipeline i' p' (flush s))
    | _ => None
    end
  | FlushRecv =>
    match flush s with
    | FAtSelect =>
      match items (caches i) with
      | _ :: _ => let '(i', f') := flush_recv i in Some (MkPipeline i' (poll s) f')
      | [] =>
        if chan_closed (caches i) then
          let '(i', f') := flush_recv i in Some (MkPipeline i' (poll s) f')
        else None
      end
    | _ => None
    end
  | FlushDying =>
    match flush s with
    | FAtSelect | FRange _ =>
      if Tomb.Dying (tomb i) then
        let '(i', f') := flush_dying i in Some (MkPipeline i' (poll s) f')
      else None
    | _ => None
    end
  | FlushSend =>
    match flush s with
    | FRange (r :: rest) =>
      if can_send (buffer i) then
        let '(i', f') := flush_send r rest i in Some (MkPipeline i' (poll s) f')
      else None
    | _ => None
    end
  | FlushExit =>
    match flush s with
    | FReturned err =>
      let '(i', f') := flush_exit err i in Some (MkPipeline i' (poll s) f')
    | _ => None
    end
  | ConsumerNext =>
    match items (buffer i) with
    | _ :: rest =>
      Some (MkPipeline (set_buffer (Chan rest (cap (buffer i)) (chan_closed (buffer i))) i)
              (poll s) (flush s))
    | [] => None
    end
  | CallStop =>
    match Stop i with
    | Ret (i', _, _) => Some (MkPipeline i' (poll s) (flush s))
    | Panic _ => None
    end
  end.

Fixpoint run (acts : list action) (s : pipeline) : option pipeline :=
  match acts with
  | [] => Some s
  | a :: rest =>
    match exec a s with
    | Some s' => run rest s'
    | None => None
    end
  end.

(** The pipeline as [NewStreamIterator] starts it. *)
Definition start (client : conn) (key : string) (pollingInterval : Z) (position : string)
  : option pipeline :=
  match NewStreamIterator client key pollingInterval position with
  | Ret (Started i p f) => Some (MkPipeline i p f)
  | _ => None
  end.

(** The records on their way to the consumer, oldest first: those in the
    record channel, those the flush goroutine still has to push, those of
    the batches in the batch channel. *)
Definition flush_rest (f : flush_pc) : list record :=
  match f with
  | FRange rest => rest
  | _ => []
  end.

Definition in_flight_records (s : pipeline) : list record :=
  (items (buffer (it s)) ++ flush_rest (flush s) ++ concat (items (caches (it s))))%list.

(** The flush goroutine is in its loop. *)
Definition flush_running (f : flush_pc) : bool :=
  match f with
  | FAtSelect | FRange _ => true
  | _ => false
  end.

(** The command of a poll cycle. *)
Definition xread_command (i : StreamIterator) : command :=
  Cmd "XREAD" [AStr "COUNT"; AInt (Z.of_nat (recordsPerCall i)); AStr "STREAMS";
               AStr (key i); AStr (lastID i)].

(** The array that the store answers to the next command of the iterator,
    when it answers one. *)
Definition next_reply (i : StreamIterator) : option (list reply) :=
  match client i with
  | Some c =>
    match answers c (length (sent c)) with
    | inl (RArr resp) => Some resp
    | _ => None
    end
  | None => None
  end.

End WithLibraries.

End Stream.

(** ** Entry identifiers and the shape of an XREAD response *)

Module StreamID.

(** An entry identifier is ["<millisecond-timestamp>-<sequence>"], both parts
    unsigned 64-bit decimals; the store orders identifiers by the first part,
    then by the second. *)
Fixpoint after_dash (s : string) : option string :=
  match s with
  | EmptyString => None
  | String c rest => if Ascii.eqb c "-" then Some rest else after_dash rest
  end.

Definition uint64_max : Z := (2 ^ 64 - 1)%Z.

Definition parse_uint64 (s : string) : option Z :=
  match s with
  | EmptyString => None
  | _ =>
    match Decode.parse_digits s 0 with
    | Some n => if (n <=? uint64_max)%Z then Some n else None
    | None => None
    end
  end.

Definition parse (id : string) : option (Z * Z) :=
  match parse_uint64 (Decode.before_dash id) with
  | None => None
  | Some ms =>
    match after_dash id with
    | None => Some (ms, 0%Z)
    | Some q =>
      match parse_uint64 q with
      | Some seq => Some (ms, seq)
      | None => None
      end
    end
  end.



End StreamID.

Module Response.

(** The entry identifiers of a response, in the order [toRecords] walks
    it. *)
Definition id_of_entry (iID : reply) : option string :=
  match iID with
  | RArr idInfo =>
    match idInfo !! 0 with
    | Some (RBulk position) => Some position
    | _ => None
    end
  | _ => None
  end.

Definition ids_of_key (iKey : reply) : list string :=
  match iKey with
  | RArr keyInfo =>
    match keyInfo !! 1 with
    | Some (RArr idList) => omap id_of_entry idList
    | _ => []
    end
  | _ => []
  end.

Definition entry_ids (resp : list reply) : list string :=
  concat (List.map ids_of_key resp).

(** The number of entries of a response. *)
Definition entries_of_key (iKey : reply) : nat :=
  match iKey with
  | RArr keyInfo =>
    match keyInfo !! 1 with
    | Some (RArr idList) => length idList
    | _ => 0
    end
  | _ => 0
  end.

Definition entry_count (resp : list reply) : nat :=
  list_sum (List.map entries_of_key resp).

(** The entries of a response, in the order [toRecords] walks them. *)
Definition entry_list (iKey : reply) : list reply :=
  match iKey with
  | RArr keyInfo =>
    match keyInfo !! 1 with
    | Some (RArr idList) => idList
    | _ => []
    end
  | _ => []
  end.

Definition entries (resp : list reply) : list reply :=
  concat (List.map entry_list resp).

(** The field list of an entry. *)
Definition fields_of_entry (iID : reply) : option (list reply) :=
  match iID with
  | RArr idInfo =>
    match idInfo !! 1 with
    | Some (RArr fieldList) => Some fieldList
    | _ => None
    end
  | _ => None
  end.

(** A well-formed response: a list of pairs of a key and a list of entries,
    each entry a pair of an entry identifier and an even-length list of
    bulk strings. *)
Definition is_bulk (r : reply) : bool :=
  match r with
  | RBulk _ => true
  | _ => false
  end.

Definition wf_fields (fieldList : list reply) : bool :=
  (length fieldList mod 2 =? 0) && forallb is_bulk fieldList.

Definition wf_entry (iID : reply) : bool :=
  match iID with
  | RArr [RBulk position; RArr fieldList] =>
    (if StreamID.parse position is Some _ then true else false) && wf_fields fieldList
  | _ => false
  end.

Definition wf_key (iKey : reply) : bool :=
  match iKey with
  | RArr [RBulk _; RArr idList] => forallb wf_entry idList
  | _ => false
  end.

Definition well_formed (resp : list reply) : bool := forallb wf_key resp.

(** A response whose first defect is an entry with an odd-length field
    list: well-formed keys, then a key with well-formed entries followed by
    the odd one; what comes after is arbitrary. *)
Definition odd_response (before : list reply) (key : string) (entries : list reply)
    (position : string) (fieldList : list reply) (rest_entries rest_keys : list reply)
  : list reply :=
  (before ++
   RArr [RBulk key; RArr (entries ++ RArr [RBulk position; RArr fieldList] :: rest_entries)]
   :: rest_keys)%list.

(** Every array at the level of keys and of entries has the two elements
    that [parseKeyData] and [parsePositionData] index. *)
Definition sized_entry (iID : reply) : bool :=
  match iID with
  | RArr idInfo => 2 <=? length idInfo
  | _ => true
  end.

Definition sized_key (iKey : reply) : bool :=
  match iKey with
  | RArr keyInfo => (2 <=? length keyInfo) && forallb sized_entry (entry_list iKey)
  | _ => true
  end.

Definition sized (resp : list reply) : bool := forallb sized_key resp.

(** The field list that carries the given (name, value) pairs, in order. *)
Definition field_list_of (pairs : list (string * string)) : list reply :=
  flat_map (fun kv => [RBulk kv.1; RBulk kv.2]) pairs.

End Response.

(** ** Configuration *)

Module Config.

(** Modelled from the spec: the [config] package is not among the sources;
    the two operation modes are the strings the parameter descriptions
    list, ['pubsub', 'stream']. *)
Definition ModePubSub : string := "pubsub".
Definition ModeStream : string := "stream".

Record Config : Type := MkConfig {
  Host : string;
  Port : string;
  RedisKey : string;
  Database : Z;
  Password : string;
  Username : string;
  Mode : string;
  PollingPeriod : Z
}.

End Config.

(** ** The source dispatcher (source.go) *)

Module Source.

(** The [Iterator] interface; of its implementations the stream iterator is
    the one among the sources. *)
Inductive Iterator : Type :=
  | OfStream (i : Stream.StreamIterator).

Record Source : Type := MkSource {
  config : Config.Config;
  iterator : option Iterator
}.

Definition Iterator_Stop (i : Iterator) : go (Iterator * option error * conn) :=
  match i with
  | OfStream si =>
    do* (si, err, c) <- Stream.Stop si;
    Ret (OfStream si, err, c)
  end.

Definition Teardown (s : Source) : go (Source * option error) :=
  match iterator s with
  | Some i =>
    do* (i, err, _) <- Iterator_Stop i;
    match err with
    | Some e => Ret (MkSource (config s) (Some i), Some e)
    | None => Ret (MkSource (config s) None, None)
    end
  | None => Ret (s, None)
  end.

(** [sdk.ErrBackoffRetry]. *)
Definition ErrBackoffRetry : error := ErrSentinel "backoff retry".

Definition Iterator_HasNext (i : Iterator) : bool :=
  match i with
  | OfStream si => Stream.HasNext si
  end.

Inductive Iterator_Next (ctx_done : option error)
  : Iterator -> Iterator -> record -> option error -> Prop :=
  | Next_OfStream si si' rec err :
      Stream.Next ctx_done si si' rec err ->
      Iterator_Next ctx_done (OfStream si) (OfStream si') rec err.

(** [Read(ctx)]: [Read ctx_done s s' out] holds when the call takes the
    source from [s] to [s'] with the outcome [out]. *)
Inductive Read (ctx_done : option error)
  : Source -> Source -> go (record * option error) -> Prop :=
  | Read_nil s :
      iterator s = None ->
      Read ctx_done s s (Panic nil_dereference)
  | Read_backoff s i :
      iterator s = Some i ->
      Iterator_HasNext i = false ->
      Read ctx_done s s (Ret (zero_record, Some ErrBackoffRetry))
  | Read_error s i i' rec e :
      iterator s = Some i ->
      Iterator_HasNext i = true ->
      Iterator_Next ctx_done i i' rec (Some e) ->
      Read ctx_done s (MkSource (config s) (Some i'))
        (Ret (zero_record, Some (ErrWrap "error fetching next record: " e)))
  | Read_record s i i' rec :
      iterator s = Some i ->
      Iterator_HasNext i = true ->
      Iterator_Next ctx_done i i' rec None ->
      Read ctx_done s (MkSource (config s) (Some i')) (Ret (rec, None)).

End Source.

(** ** The destination writer (destination.go) *)

Module Destination.

Import Config.

Definition keyTypeNone : string := "none".
Definition keyTypeStream : string := "stream".

Record Destination : Type := MkDestination {
  config : Config;
  client : option conn
}.

Definition set_client (c : option conn) (d : Destination) : Destination :=
  MkDestination (config d) c.

Definition err_invalid_mode (mode : string) : error :=
  ErrNew ("invalid mode(" ++ mode ++ ") encountered").

(** *** validateKey and Open *)

Definition validateKey (d : Destination) (client : conn) : conn * option error :=
  if String.eqb (Mode (config d)) ModePubSub then (client, None)
  else if String.eqb (Mode (config d)) ModeStream then
    let '(r, client) := conn_Do client "TYPE" [AStr (RedisKey (config d))] in
    let '(keyType, err) := redis_String r in
    match err with
    | Some e =>
      (client,
       Some (ErrWrap ("error fetching type of key(" ++ RedisKey (config d) ++ "): ") e))
    | None =>
      if negb (String.eqb keyType keyTypeNone) && negb (String.eqb keyType keyTypeStream) then
        (client, Some (ErrNew ("invalid key type: " ++ keyType ++ ", expected none or stream")))
      else (client, None)
    end
  else (client, Some (err_invalid_mode (Mode (config d)))).

(** [dial] is the outcome of [redis.DialContext]. *)
Definition Open (d : Destination) (dial : conn + error) : Destination * option error :=
  match dial with
  | inr e => (d, Some (ErrWrap "failed to connect redis client: " e))
  | inl redisClient =>
    let '(redisClient, err) := validateKey d redisClient in
    (set_client (Some redisClient) d, err)
  end.

(** The destination [d] holds the connection [c], which is the connection
    [c0] of [d0] after some more commands. *)
Definition continues (d0 : Destination) (c0 : conn) (d : Destination) (c : conn) : Prop :=
  client d = Some c /\ config d = config d0 /\
  answers c = answers c0 /\ with_context c = with_context c0.

(** *** Teardown *)

Definition Teardown (d : Destination) : Destination * option error :=
  match client d with
  | Some c =>
    let '(err, c) := conn_Close c in
    (set_client (Some c) d, err)
  | None => (d, None)
  end.

Section WithLibraries.

(** [json.Unmarshal] into a [map[string]interface{}]: the members of the
    decoded map in the order the [range] loop visits them, or the error. *)
Variable json_Unmarshal : string -> list (string * jvalue) + error.

(** *** payloadToStreamArgs *)

(** The function from the bytes of the payload on. *)
Definition streamArgs_of_bytes (bytes : string) : list arg * option error :=
  match json_Unmarshal bytes with
  | inr e => ([], Some (ErrWrap "invalid json received in payload: " e))
  | inl recMap =>
    let keyValArgs := flat_map (fun kv => [AStr kv.1; AJson kv.2]) recMap in
    if length keyValArgs =? 0 then ([], Some (ErrNew "no key-value pair received"))
    else (keyValArgs, None)
  end.

Definition payloadToStreamArgs (payload : option string) : go (list arg * option error) :=
  do* bytes <- Data_Bytes payload;
  Ret (streamArgs_of_bytes bytes).

(** *** doWithCtx *)

Definition client_Do (d : Destination) (cmd : string) (args : list arg)
  : go ((reply + error) * Destination) :=
  match client d with
  | None => Panic nil_dereference
  | Some c =>
    let '(r, c) := conn_Do c cmd args in
    Ret (r, set_client (Some c) d)
  end.

Definition doWithCtx (d : Destination) (cmd : string) (args : list arg)
  : go ((reply + error) * Destination) :=
  match client d with
  | None => Panic nil_dereference
  | Some c =>
    if with_context c then client_Do d cmd args
    else client_Do d cmd [AArgs args]
  end.

(** *** Write *)

(** The two [for i, r := range rec] loops, from index [i] on; [Some (i, err)]
    is the [return i, err] inside the loop. *)
Fixpoint Write_pubsub (key : string) (i : nat) (rec : list record) (d : Destination)
  : go (Destination * option (nat * error)) :=
  match rec with
  | [] => Ret (d, None)
  | r :: rest =>
    do* bytes <- Data_Bytes (PayloadAfter r);
    do* (res, d) <- doWithCtx d "PUBLISH" [AStr key; AStr bytes];
    match res with
    | inr e =>
      Ret (d, Some (i, ErrWrap ("error publishing message to channel(" ++ key ++ "): ") e))
    | inl _ => Write_pubsub key (S i) rest d
    end
  end.

Fixpoint Write_stream (key : string) (i : nat) (rec : list record) (d : Destination)
  : go (Destination * option (nat * error)) :=
  match rec with
  | [] => Ret (d, None)
  | r :: rest =>
    do* (keyValArgs, err) <- payloadToStreamArgs (PayloadAfter r);
    match err with
    | Some e => Ret (d, Some (i, ErrWrap "invalid payload: " e))
    | None =>
      let args := AStr key :: AStr "*" :: keyValArgs in
      do* (res, d) <- client_Do d "XADD" args;
      match res with
      | inr e =>
        Ret (d, Some (i, ErrWrap ("error streaming message to key(" ++ key ++ "):") e))
      | inl _ => Write_stream key (S i) rest d
      end
    end
  end.

Definition Write (d : Destination) (rec : list record)
  : go (Destination * nat * option error) :=
  let key := RedisKey (config d) in
  if String.eqb (Mode (config d)) ModePubSub then
    do* (d, early) <- Write_pubsub key 0 rec d;
    match early with
    | Some (i, e) => Ret (d, i, Some e)
    | None => Ret (d, length rec, None)
    end
  else if String.eqb (Mode (config d)) ModeStream then
    do* (d, early) <- Write_stream key 0 rec d;
    match early with
    | Some (i, e) => Ret (d, i, Some e)
    | None => Ret (d, length rec, None)
    end
  else Ret (d, 0, Some (err_invalid_mode (Mode (config d)))).

(** *** What a write does to the connection *)

(** The command [Write] issues for a record that carries a payload, given
    the connection; [None] when the payload is rejected before any command
    (and for a record without payload, for which no command is issued
    either). *)
Definition record_command (d : Destination) (c : conn) (r : record) : option command :=
  let key := RedisKey (config d) in
  match PayloadAfter r with
  | None => None
  | Some bytes =>
    if String.eqb (Mode (config d)) ModePubSub then
      let args := [AStr key; AStr bytes] in
      Some (Cmd "PUBLISH" (if with_context c then args else [AArgs args]))
    else
      match streamArgs_of_bytes bytes with
      | (keyValArgs, None) => Some (Cmd "XADD" (AStr key :: AStr "*" :: keyValArgs))
      | (_, Some _) => None
      end
  end.

Definition accepted (a : reply + error) : bool :=
  match a with
  | inl _ => true
  | inr _ => false
  end.

(** The record written as the [n]-th command of the connection applies:
    it carries a payload, the payload is accepted and the store answers its
    command without error. *)
Definition applies (d : Destination) (c : conn) (n : nat) (r : record) : bool :=
  match record_command d c r with
  | Some _ => accepted (answers c n)
  | None => false
  end.

(** The index of the first record of [rec] that does not apply, the first
    record being written as command number [n]. *)
Fixpoint first_failure (d : Destination) (c : conn) (n : nat) (rec : list record)
  : option nat :=
  match rec with
  | [] => None
  | r :: rest =>
    if applies d c n r then option_map S (first_failure d c (S n) rest)
    else Some 0
  end.

End WithLibraries.

End Destination.

(** ** Concrete connections and responses *)

Module Samples.

Definition quote (s : string) : string := s.
Definition now (n : nat) : Z := 0%Z.

(** A connection that answers its commands from a list, then fails. *)
Definition scripted (l : list (reply + error)) : conn :=
  Conn (fun n => nth n l (inr (ErrNew "EOF"))) [] true None 0.

Definition entry (id : string) (fields : list string) : reply :=
  RArr [RBulk id; RArr (List.map RBulk fields)].

Definition xread (key : string) (entries : list reply) : reply + error :=
  inl (RArr [RArr [RBulk key; RArr entries]]).

Definition type_stream : reply + error := inl (RStr "stream").

(** Two entries of one stream, the second with a repeated field name. *)
Definition two_entries : list reply :=
  [RArr [RBulk "mystream";
         RArr [entry "1700000000000-0" ["a"; "1"];
               entry "1700000000000-1" ["a"; "1"; "b"; "2"; "a"; "3"]]]].

Definition repeated_fields : list reply :=
  List.map RBulk ["a"; "1"; "b"; "2"; "a"; "3"].


(** A store that answers a read after ["5-0"] with the entry ["6-0"]. *)
Definition later_entry : conn :=
  scripted [type_stream; xread "mystream" [entry "6-0" ["a"; "1"]]].

(** A store that answers a read with an array of no entries. *)
Definition no_entries : conn :=
  scripted [type_stream; inl (RArr [])].

(** A store that answers three reads with a batch each. *)
Definition three_batches : conn :=
  scripted [type_stream;
            xread "mystream" [entry "1-0" ["a"; "1"]; entry "2-0" ["a"; "2"]];
            xread "mystream" [entry "3-0" ["a"; "3"]];
            xread "mystream" [entry "4-0" ["a"; "4"]]].

(** A store whose second entry has a field name without a value. *)
Definition odd_entry : conn :=
  scripted [type_stream;
            xread "mystream" [entry "1-0" ["a"; "1"]; entry "2-0" ["a"; "1"; "b"]]].

Definition type_hash : conn := scripted [inl (RStr "hash")].

(** The iterator that [NewStreamIterator c "mystream" 1000 position] starts
    when the store says the key is a stream. *)
Definition started (c : conn) (position : string) : Stream.StreamIterator :=
  Stream.MkStreamIterator "mystream" (Some (conn_Do c "TYPE" [AStr "mystream"]).2)
    (Tomb.MkTomb 2 Tomb.StillAlive) position 1000 1000 (Stream.MkTicker false false)
    (make_chan 1) (make_chan 1).

Definition pipeline_of (i : Stream.StreamIterator) : Stream.pipeline :=
  Stream.MkPipeline i Stream.AtSelect Stream.FAtSelect.

(** The batch a poll goroutine stands with at the handoff. *)
Definition batch_of (p : Stream.poll_pc) : list record :=
  match p with
  | Stream.AtHandoff recs => recs
  | _ => []
  end.

(** One batch goes through to the flush goroutine, a second waits in the
    channel, a third is decoded. *)
Definition fill_up : list Stream.action :=
  [Stream.Clock; Stream.PollTick; Stream.PollSend; Stream.FlushRecv; Stream.FlushSend;
   Stream.Clock; Stream.PollTick; Stream.PollSend;
   Stream.Clock; Stream.PollTick].

(** A decoder that reads every non-empty payload as an object of one
    member. *)
Definition unmarshal (payload : string) : list (string * jvalue) + error :=
  if String.eqb payload "" then inr (ErrNew "unexpected end of JSON input")
  else inl [("message", JString payload)].






(** A store that answers a read with nil, and one whose reads fail. *)
Definition nothing_new : conn := scripted [type_stream; inl RNil].
Definition broken_pipe : conn := scripted [type_stream; inr (ErrNew "broken pipe")].

(** A connection whose [Close] fails. *)
Definition close_fails : conn :=
  Conn (fun _ => inl RNil) [] true (Some (ErrNew "use of closed network connection")) 0.

Definition stream_config : Config.Config :=
  Config.MkConfig "localhost" "6379" "mystream" 0 "" "" "stream" 1000.

Definition pubsub_config : Config.Config :=
  Config.MkConfig "localhost" "6379" "news" 0 "" "" "pubsub" 1000.

(** The state that a list of actions leads to. *)
Definition after (acts : list Stream.action) (i : Stream.StreamIterator) : Stream.pipeline :=
  match Stream.run quote now acts (pipeline_of i) with
  | Some s => s
  | None => pipeline_of i
  end.

End Samples.

(** * Properties *)

Local Open Scope list_scope.

(** ** Decoding *)

Module DecodeProps.

Import Decode Response.

Lemma even_list_ind {A} (P : list A -> Prop) :
  P [] -> (forall a, P [a]) -> (forall a b l, P l -> P (a :: b :: l)) ->
  forall l, P l.
Proof.
  intros H0 H1 H2.
  assert (H : forall l, P l /\ forall a, P (a :: l)).
  { induction l as [|b l [IH1 IH2]]; split; auto. }
  intros l. apply H.
Qed.

Lemma mod2_SS n : S (S n) mod 2 = n mod 2.
Proof.
  change (S (S n)) with (2 + n).
  rewrite <- Nat.Div0.add_mod_idemp_l. reflexivity.
Qed.

Lemma parse_nonempty id : StreamID.parse id <> None -> id <> "".
Proof. intros H ->. apply H. reflexivity. Qed.

Section WithLibraries.

Variable json_quote : string -> string.
Variable now : nat -> Z.

Abbreviation toRecords := (toRecords json_quote now).
Abbreviation toRecords_keys := (toRecords_keys json_quote now).
Abbreviation toRecords_ids := (toRecords_ids json_quote now).

(** On an even-length list of bulk strings the loop inserts the pairs in
    order. *)
Lemma arrInterfaceToMap_loop_bulk values :
  forall i m,
    length values mod 2 = 0 -> forallb is_bulk values = true ->
    arrInterfaceToMap_loop i values m
    = Ret (foldl (fun m kv => <[kv.1 := kv.2]> m) m (field_pairs values), None).
Proof.
  induction values as [|a|a b l IH] using even_list_ind; intros i m Hlen Hb.
  - reflexivity.
  - discriminate Hlen.
  - cbn [length] in Hlen. rewrite mod2_SS in Hlen.
    cbn [forallb] in Hb. apply andb_prop in Hb as [Ha Hb]. apply andb_prop in Hb as [Hb Hl].
    destruct a; try discriminate Ha. destruct b; try discriminate Hb.
    cbn [arrInterfaceToMap_loop field_pairs foldl]. apply IH; assumption.
Qed.

Lemma arrInterfaceToMap_wf values :
  wf_fields values = true ->
  arrInterfaceToMap values
  = Ret (foldl (fun m kv => <[kv.1 := kv.2]> m) ∅ (field_pairs values), None).
Proof.
  unfold wf_fields, arrInterfaceToMap. intros H.
  apply andb_prop in H as [Hlen Hb]. rewrite Hlen. cbn [negb].
  apply Nat.eqb_eq in Hlen. apply arrInterfaceToMap_loop_bulk; assumption.
Qed.

Lemma toRecords_ids_wf key ref idList :
  forall st,
    forallb wf_entry idList = true ->
    exists st',
      toRecords_ids key ref idList st = Ret (st', None) /\
      List.map Position (records st')
      = List.map Position (records st) ++ omap id_of_entry idList /\
      length (records st') = length (records st) + length idList /\
      (Forall (fun r => Position r <> "") (records st) ->
       Forall (fun r => Position r <> "") (records st')).
Proof.
  induction idList as [|iID rest IH]; intros st Hwf.
  - exists st. cbn. rewrite app_nil_r, Nat.add_0_r. auto.
  - cbn [forallb] in Hwf. apply andb_prop in Hwf as [He Hrest].
    destruct iID as [| | | |idInfo|]; try discriminate He.
    destruct idInfo as [|[| | |position| |] [|[| | | |fieldList|] [|]]]; try discriminate He.
    cbn [wf_entry] in He. apply andb_prop in He as [Hid Hf].
    cbn [toRecords_ids parsePositionData lookup list_lookup go_bind].
    rewrite (arrInterfaceToMap_wf _ Hf). cbn [go_bind].
    destruct (getTimeFromPosition now position (clock st)) as [t clock'].
    edestruct IH as (st' & Hrun & Hpos & Hlen & Hne); [exact Hrest|].
    exists st'. split; [exact Hrun|]. cbn [records] in *.
    split; [|split].
    + rewrite Hpos, map_app. cbn. rewrite <- app_assoc. reflexivity.
    + rewrite Hlen, length_app. cbn. lia.
    + intros Hst. apply Hne. apply Forall_app. split; [exact Hst|].
      constructor; [|constructor]. cbn. apply parse_nonempty.
      destruct (StreamID.parse position); [discriminate|discriminate Hid].
Qed.

Lemma toRecords_keys_wf resp :
  forall st,
    well_formed resp = true ->
    exists st',
      toRecords_keys resp st = Ret (st', None) /\
      List.map Position (records st')
      = List.map Position (records st) ++ entry_ids resp /\
      length (records st') = length (records st) + entry_count resp /\
      (Forall (fun r => Position r <> "") (records st) ->
       Forall (fun r => Position r <> "") (records st')).
Proof.
  induction resp as [|iKey rest IH]; intros st Hwf.
  - exists st. cbn. rewrite app_nil_r, Nat.add_0_r. auto.
  - unfold well_formed in Hwf. cbn [forallb] in Hwf. apply andb_prop in Hwf as [Hk Hrest].
    destruct iKey as [| | | |keyInfo|]; try discriminate Hk.
    destruct keyInfo as [|[| | |key| |] [|[| | | |idList|] [|]]]; try discriminate Hk.
    cbn [wf_key] in Hk.
    cbn [toRecords_keys parseKeyData lookup list_lookup go_bind].
    edestruct (toRecords_ids_wf key (length (mdheap st)) idList) as (st1 & Hrun1 & Hpos1 & Hlen1 & Hne1);
      [exact Hk|].
    rewrite Hrun1. cbn [go_bind].
    destruct (IH st1 Hrest) as (st' & Hrun & Hpos & Hlen & Hne).
    exists st'. split; [exact Hrun|]. cbn [records] in *.
    split; [|split].
    + rewrite Hpos, Hpos1. unfold entry_ids. cbn. rewrite <- app_assoc. reflexivity.
    + rewrite Hlen, Hlen1. unfold entry_count, list_sum. cbn. lia.
    + intros Hst. apply Hne, Hne1, Hst.
Qed.

(** C2. Decoding a well-formed XREAD response of N entries returns no error
    and exactly N records, whose positions are the entry identifiers in the
    order of the response, none of them empty. *)
Theorem toRecords_well_formed (resp : list reply) :
  well_formed resp = true ->
  exists recs,
    toRecords resp = Ret (recs, None) /\
    length recs = entry_count resp /\
    List.map Position recs = entry_ids resp /\
    Forall (fun r => Position r <> "") recs.
Proof.
  intros Hwf.
  destruct (toRecords_keys_wf resp decoder_init Hwf) as (st' & Hrun & Hpos & Hlen & Hne).
  exists (records st'). unfold Decode.toRecords. rewrite Hrun. cbn [go_bind].
  repeat split.
  - exact Hlen.
  - exact Hpos.
  - apply Hne. constructor.
Qed.

(** *** An odd-length field list *)

Lemma odd_not_even n : n mod 2 = 1 -> negb (n mod 2 =? 0) = true.
Proof. intros ->. reflexivity. Qed.

Lemma toRecords_ids_odd key ref before position fieldList rest :
  forall st,
    forallb wf_entry before = true ->
    length fieldList mod 2 = 1 ->
    exists st',
      toRecords_ids key ref (before ++ RArr [RBulk position; RArr fieldList] :: rest) st
      = Ret (st', Some (ErrWrap err_to_map (err_odd_values (length fieldList)))) /\
      List.map Position (records st')
      = List.map Position (records st) ++ omap id_of_entry before.
Proof.
  intros st Hwf Hodd.
  destruct (toRecords_ids_wf key ref before st Hwf) as (st1 & Hrun & Hpos & _).
  exists st1. split; [|exact Hpos].
  clear Hpos. revert st Hwf Hrun.
  induction before as [|iID before IH]; intros st Hwf Hrun.
  - cbn in Hrun. injection Hrun as <-.
    cbn [app toRecords_ids parsePositionData lookup list_lookup go_bind].
    unfold arrInterfaceToMap. rewrite (odd_not_even _ Hodd). reflexivity.
  - cbn [forallb] in Hwf. apply andb_prop in Hwf as [He Hrest].
    destruct iID as [| | | |idInfo|]; try discriminate He.
    destruct idInfo as [|[| | |p| |] [|[| | | |fl|] [|]]]; try discriminate He.
    cbn [wf_entry] in He. apply andb_prop in He as [_ Hf].
    cbn [app toRecords_ids parsePositionData lookup list_lookup go_bind] in Hrun |- *.
    rewrite (arrInterfaceToMap_wf _ Hf) in Hrun |- *. cbn [go_bind] in Hrun |- *.
    destruct (getTimeFromPosition now p (clock st)) as [t clock'].
    apply IH; assumption.
Qed.

Lemma toRecords_keys_odd before key entries position fieldList rest_entries rest_keys :
  forall st,
    well_formed before = true ->
    forallb wf_entry entries = true ->
    length fieldList mod 2 = 1 ->
    exists st',
      toRecords_keys
        (odd_response before key entries position fieldList rest_entries rest_keys) st
      = Ret (st', Some (ErrWrap err_to_map (err_odd_values (length fieldList)))) /\
      List.map Position (records st')
      = List.map Position (records st) ++ entry_ids before ++ omap id_of_entry entries.
Proof.
  unfold odd_response.
  induction before as [|iKey before IH]; intros st Hwf Hent Hodd.
  - cbn [app toRecords_keys parseKeyData lookup list_lookup go_bind].
    edestruct toRecords_ids_odd as (st' & Hrun & Hpos); [exact Hent|exact Hodd|].
    rewrite Hrun. cbn [go_bind]. exists st'. split; [reflexivity|].
    rewrite Hpos. reflexivity.
  - unfold well_formed in Hwf. cbn [forallb] in Hwf. apply andb_prop in Hwf as [Hk Hrest].
    destruct iKey as [| | | |keyInfo|]; try discriminate Hk.
    destruct keyInfo as [|[| | |k| |] [|[| | | |idList|] [|]]]; try discriminate Hk.
    cbn [wf_key] in Hk.
    cbn [app toRecords_keys parseKeyData lookup list_lookup go_bind].
    edestruct (toRecords_ids_wf k (length (mdheap st)) idList) as (st1 & Hrun1 & Hpos1 & _);
      [exact Hk|].
    rewrite Hrun1. cbn [go_bind].
    destruct (IH st1 Hrest Hent Hodd) as (st' & Hrun & Hpos).
    exists st'. split; [exact Hrun|].
    rewrite Hpos, Hpos1. cbn [records]. unfold entry_ids. cbn.
    rewrite <- !app_assoc. reflexivity.
Qed.

Lemma toRecords_odd before key entries position fieldList rest_entries rest_keys :
  well_formed before = true ->
  forallb wf_entry entries = true ->
  length fieldList mod 2 = 1 ->
  exists recs,
    toRecords (odd_response before key entries position fieldList rest_entries rest_keys)
    = Ret (recs, Some (ErrWrap err_to_map (err_odd_values (length fieldList)))) /\
    List.map Position recs = entry_ids before ++ omap id_of_entry entries.
Proof.
  intros Hwf Hent Hodd.
  destruct (toRecords_keys_odd before key entries position fieldList rest_entries rest_keys
              decoder_init Hwf Hent Hodd) as (st' & Hrun & Hpos).
  exists (records st'). unfold Decode.toRecords. rewrite Hrun. cbn [go_bind].
  split; [reflexivity|exact Hpos].
Qed.

(** *** Repeated field names *)

Lemma find_snoc {A} (f : A -> bool) l x :
  List.find f (l ++ [x])
  = match List.find f l with
    | Some y => Some y
    | None => if f x then Some x else None
    end.
Proof.
  induction l as [|a l IH]; cbn.
  - reflexivity.
  - destruct (f a); [reflexivity|exact IH].
Qed.

Lemma foldl_insert_lookup (pairs : list (string * string)) :
  forall (m : gmap string string) name,
    foldl (fun m kv => <[kv.1 := kv.2]> m) m pairs !! name
    = match List.find (fun kv => String.eqb kv.1 name) (rev pairs) with
      | Some kv => Some kv.2
      | None => m !! name
      end.
Proof.
  induction pairs as [|[k v] rest IH]; intros m name.
  - reflexivity.
  - cbn [foldl rev]. rewrite IH, find_snoc.
    destruct (List.find _ (rev rest)); [reflexivity|].
    cbn [fst snd]. destruct (String.eqb_spec k name) as [->|Hne].
    + apply lookup_insert_eq.
    + apply lookup_insert_ne. exact Hne.
Qed.

Lemma foldl_insert_dom (pairs : list (string * string)) :
  forall m : gmap string string,
    dom (foldl (fun m kv => <[kv.1 := kv.2]> m) m pairs)
    = dom m ∪ list_to_set (List.map fst pairs).
Proof.
  induction pairs as [|[k v] rest IH]; intros m; cbn [foldl List.map list_to_set].
  - set_solver.
  - rewrite IH, dom_insert_L. cbn [fst]. set_solver.
Qed.

Lemma size_list_to_set_le (l : list string) :
  size (list_to_set l : gset string) <= length l /\
  (~ NoDup l -> size (list_to_set l : gset string) < length l).
Proof.
  induction l as [|a l [IHle IHlt]].
  - split; [cbn; rewrite size_empty; lia|]. intros H. destruct H. constructor.
  - rewrite list_to_set_cons. cbn [length].
    destruct (decide (a ∈ l)) as [Hin|Hout].
    + assert (Heq : {[a]} ∪ (list_to_set l : gset string) = list_to_set l).
      { apply set_eq. intros x. rewrite elem_of_union, elem_of_singleton, elem_of_list_to_set.
        split; [intros [->|H]; assumption|auto]. }
      rewrite Heq. split; [lia|intros _; lia].
    + rewrite size_union, size_singleton.
      * split; [lia|]. intros Hdup.
        assert (~ NoDup l) by (intros Hl; apply Hdup; constructor; assumption).
        apply IHlt in H. lia.
      * intros x. rewrite elem_of_singleton, elem_of_list_to_set. intros ->. exact Hout.
Qed.

Lemma field_pairs_length values :
  length values mod 2 = 0 -> forallb is_bulk values = true ->
  length values = 2 * length (field_pairs values).
Proof.
  induction values as [|a|a b l IH] using even_list_ind; intros Hlen Hb.
  - reflexivity.
  - discriminate Hlen.
  - cbn [length] in Hlen. rewrite mod2_SS in Hlen.
    cbn [forallb] in Hb. apply andb_prop in Hb as [Ha Hb]. apply andb_prop in Hb as [Hb Hl].
    destruct a; try discriminate Ha. destruct b; try discriminate Hb.
    cbn [field_pairs length]. rewrite (IH Hlen Hl). lia.
Qed.

(** C10. A field list with repeated names decodes without error; the map
    holds for each name the value of its last occurrence, so it has at most
    len/2 keys (fewer when a name repeats); the payload of the record is the
    encoding of that map, and any other field list with the same last
    values gives the same map: neither the duplicates nor the order of the
    fields are kept. *)
Theorem arrInterfaceToMap_last_wins (values : list reply) :
  wf_fields values = true ->
  exists m,
    arrInterfaceToMap values = Ret (m, None) /\
    (forall name, m !! name = last_value name values) /\
    size m <= length values / 2 /\
    (~ NoDup (field_names values) -> size m < length values / 2) /\
    (forall key position,
        toRecords [RArr [RBulk key; RArr [RArr [RBulk position; RArr values]]]]
        = Ret ([MkRecord position (Some 0) key (Some (json_Marshal json_quote m))], None)) /\
    (forall values',
        wf_fields values' = true ->
        (forall name, last_value name values' = last_value name values) ->
        arrInterfaceToMap values' = Ret (m, None)).
Proof.
  intros Hwf.
  assert (Hlook : forall vs name,
            foldl (fun m kv => <[kv.1 := kv.2]> m) (∅ : gmap string string) (field_pairs vs)
              !! name = last_value name vs).
  { intros vs name. rewrite foldl_insert_lookup. unfold last_value.
    destruct (List.find _ (rev (field_pairs vs))); reflexivity. }
  pose proof Hwf as Hwf'. unfold wf_fields in Hwf'.
  apply andb_prop in Hwf' as [Hlen Hb]. apply Nat.eqb_eq in Hlen.
  pose proof (field_pairs_length values Hlen Hb) as Hl.
  assert (Hhalf : length values / 2 = length (field_names values)).
  { unfold field_names. rewrite length_map, Hl, Nat.mul_comm. apply Nat.div_mul. lia. }
  assert (Hsize : size (foldl (fun m kv => <[kv.1 := kv.2]> m) (∅ : gmap string string)
                          (field_pairs values))
                  = size (list_to_set (field_names values) : gset string)).
  { rewrite <- size_dom, foldl_insert_dom, dom_empty_L. unfold field_names.
    f_equal. set_solver. }
  exists (foldl (fun m kv => <[kv.1 := kv.2]> m) ∅ (field_pairs values)).
  split; [apply arrInterfaceToMap_wf, Hwf|].
  split; [apply Hlook|].
  split; [rewrite Hsize, Hhalf; apply size_list_to_set_le|].
  split; [intros Hdup; rewrite Hsize, Hhalf; apply size_list_to_set_le, Hdup|].
  split.
  - intros key position. unfold Decode.toRecords.
    cbn [Decode.toRecords_keys parseKeyData parsePositionData Decode.toRecords_ids
         lookup list_lookup go_bind].
    rewrite (arrInterfaceToMap_wf _ Hwf). cbn [go_bind].
    destruct (getTimeFromPosition now position _) as [t clock']. reflexivity.
  - intros values' Hwf2 Hsame. rewrite (arrInterfaceToMap_wf _ Hwf2).
    do 2 f_equal. apply map_eq. intros name. rewrite !Hlook. apply Hsame.
Qed.

(** *** Every decoding that succeeds walked even field lists only *)

Lemma arrInterfaceToMap_even values m :
  arrInterfaceToMap values = Ret (m, None) -> length values mod 2 = 0.
Proof.
  unfold arrInterfaceToMap. destruct (length values mod 2 =? 0) eqn:He; cbn [negb].
  - intros _. apply Nat.eqb_eq, He.
  - discriminate.
Qed.

Lemma toRecords_ids_even key ref idList :
  forall st st',
    toRecords_ids key ref idList st = Ret (st', None) ->
    forall iID fieldList,
      iID ∈ idList -> fields_of_entry iID = Some fieldList ->
      length fieldList mod 2 = 0.
Proof.
  induction idList as [|iID0 rest IH]; intros st st' H iID fieldList Hin Hf.
  - inversion Hin.
  - cbn [Decode.toRecords_ids] in H. unfold parsePositionData in H.
    destruct iID0 as [| | | |idInfo|]; try discriminate H.
    destruct (idInfo !! 0) as [[| | |position| |]|]; try discriminate H.
    destruct (idInfo !! 1) as [[| | | |fl|]|] eqn:H1; try discriminate H.
    cbn [go_bind] in H.
    destruct (arrInterfaceToMap fl) as [[m [e|]]|] eqn:Harr; try discriminate H.
    cbn [go_bind] in H.
    destruct (getTimeFromPosition now position (clock st)) as [t clock'].
    apply elem_of_cons in Hin as [->|Hin].
    + cbn in Hf. rewrite H1 in Hf. injection Hf as <-.
      apply arrInterfaceToMap_even in Harr. exact Harr.
    + eapply IH; eassumption.
Qed.

Lemma toRecords_keys_even resp :
  forall st st',
    toRecords_keys resp st = Ret (st', None) ->
    forall iID fieldList,
      iID ∈ entries resp -> fields_of_entry iID = Some fieldList ->
      length fieldList mod 2 = 0.
Proof.
  induction resp as [|iKey rest IH]; intros st st' H iID fieldList Hin Hf.
  - inversion Hin.
  - cbn [Decode.toRecords_keys] in H. unfold parseKeyData in H.
    unfold entries in Hin. cbn [List.map concat] in Hin. unfold entry_list at 1 in Hin.
    destruct iKey as [| | | |keyInfo|]; try discriminate H.
    destruct (keyInfo !! 0) as [[| | |key| |]|]; try discriminate H.
    destruct (keyInfo !! 1) as [[| | | |idList|]|]; try discriminate H.
    cbn [go_bind] in H.
    destruct (Decode.toRecords_ids _ _ _ _ _ _) as [[st1 [e|]]|] eqn:Hids; try discriminate H.
    cbn [go_bind] in H.
    apply elem_of_app in Hin as [Hin|Hin].
    + eapply toRecords_ids_even; eassumption.
    + eapply IH; eassumption.
Qed.

(** Whatever else the response holds, with an entry of odd field list
    decoding does not return a batch without error. *)
Lemma odd_entry_never_decodes resp iID fieldList recs :
  iID ∈ entries resp -> fields_of_entry iID = Some fieldList ->
  length fieldList mod 2 = 1 ->
  toRecords resp <> Ret (recs, None).
Proof.
  intros Hin Hf Hodd Hdec. unfold Decode.toRecords in Hdec.
  destruct (Decode.toRecords_keys _ _ _ _) as [[st [e|]]|] eqn:H; try discriminate Hdec.
  pose proof (toRecords_keys_even resp _ _ H iID fieldList Hin Hf) as Heven.
  rewrite Hodd in Heven. discriminate.
Qed.

End WithLibraries.

Lemma toRecords_well_formed_witness :
  exists recs,
    Decode.toRecords Samples.quote Samples.now Samples.two_entries = Ret (recs, None) /\
    length recs = 2 /\
    List.map Position recs = ["1700000000000-0"; "1700000000000-1"]%string /\
    Forall (fun r => Position r <> ""%string) recs.
Proof.
  apply (toRecords_well_formed Samples.quote Samples.now Samples.two_entries).
  reflexivity.
Defined.

Lemma arrInterfaceToMap_last_wins_witness :
  exists m : gmap string string,
    arrInterfaceToMap Samples.repeated_fields = Ret (m, None) /\
    m !! "a"%string = Some "3"%string /\
    m !! "b"%string = Some "2"%string /\
    size m < 3 /\
    arrInterfaceToMap (List.map RBulk ["b"; "2"; "a"; "3"]%string) = Ret (m, None).
Proof.
  destruct (arrInterfaceToMap_last_wins Samples.quote Samples.now Samples.repeated_fields
              eq_refl) as (m & Hm & Hlook & _ & Hdup & _ & Hsame).
  exists m. split; [exact Hm|].
  split; [rewrite Hlook; reflexivity|].
  split; [rewrite Hlook; reflexivity|].
  split.
  - apply Hdup. intros Hnd. inversion Hnd as [|x l Hnotin _]; subst.
    apply Hnotin. right. left.
  - apply Hsame; [reflexivity|].
    intros name. unfold last_value. cbn -[String.eqb].
    destruct (String.eqb "a" name), (String.eqb "b" name); reflexivity.
Defined.

End DecodeProps.

(** ** The stream iterator *)

Module StreamProps.

Import Decode Response Stream.

(** [Stop] touches neither the channels nor the cursor. *)
Lemma Stop_frame i i' err c :
  Stop i = Ret (i', err, c) ->
  caches i' = caches i /\ buffer i' = buffer i /\ lastID i' = lastID i.
Proof.
  unfold Stop. cbn. destruct (client i) as [c0|]; [|discriminate].
  destruct (close_answer c0); intros H; injection H as <- _ _; repeat split.
Qed.

(** *** HasNext *)

Lemma Kill_not_alive r tb : Tomb.Alive (Tomb.Kill r tb) = false.
Proof. unfold Tomb.Kill, Tomb.Alive. destruct tb as [n [|[e|]]]; reflexivity. Qed.

Lemma run_returned_error e tb : Tomb.Alive (Tomb.run_returned (Some e) tb) = false.
Proof.
  unfold Tomb.run_returned. rewrite orb_true_r. apply Kill_not_alive.
Qed.

(** C4. [HasNext] is true exactly when the record buffer is not empty or the
    tomb is no longer alive, false exactly when the tomb is alive and the
    buffer empty; the tomb stops being alive by [Stop], by the parent
    context, and by a goroutine that returns an error, and [HasNext] is
    true after each of them. *)
Theorem HasNext_iff (i : StreamIterator) :
  (HasNext i = true <-> items (buffer i) <> [] \/ Tomb.Dying (tomb i) = true) /\
  (HasNext i = false <-> items (buffer i) = [] /\ Tomb.Alive (tomb i) = true) /\
  (forall i' err c, Stop i = Ret (i', err, c) -> HasNext i' = true) /\
  (forall e, HasNext (set_tomb (Tomb.Kill (Some e) (tomb i)) i) = true) /\
  (forall e, HasNext (poll_exit (Some e) i).1 = true) /\
  (forall e, HasNext (flush_exit (Some e) i).1 = true).
Proof.
  unfold HasNext, Tomb.Dying, chan_len.
  split; [|split; [|split; [|split; [|split]]]].
  - destruct (items (buffer i)) as [|r rest]; destruct (Tomb.Alive (tomb i)); cbn;
      intuition congruence.
  - destruct (items (buffer i)) as [|r rest]; destruct (Tomb.Alive (tomb i)); cbn;
      intuition congruence.
  - intros i' err c. unfold Stop. cbn.
    destruct (client i) as [c0|]; [|discriminate].
    destruct (close_answer c0); intros H; injection H as <- _ _; cbn;
      rewrite Kill_not_alive; apply orb_true_r.
  - intros e. cbn. rewrite Kill_not_alive. apply orb_true_r.
  - intros e. cbn. rewrite run_returned_error. apply orb_true_r.
  - intros e. cbn. rewrite run_returned_error. apply orb_true_r.
Qed.

(** *** The type of the key *)

Lemma type_check_accepts keyType :
  negb (String.eqb keyType keyTypeNone) && negb (String.eqb keyType keyTypeStream) = false
  <-> keyType = "none"%string \/ keyType = "stream"%string.
Proof.
  unfold keyTypeNone, keyTypeStream.
  destruct (String.eqb_spec keyType "none"), (String.eqb_spec keyType "stream"); cbn;
    intuition congruence.
Qed.

Lemma type_accepted_iff client keyType :
  type_answer client = (keyType, None) ->
  type_accepted client <-> (keyType = "none"%string \/ keyType = "stream"%string).
Proof.
  intros Ha. unfold type_accepted. split.
  - intros (kt & Hkt & H). rewrite Ha in Hkt. injection Hkt as <-. exact H.
  - intros H. exists keyType. auto.
Qed.

Lemma type_rejected_error client keyType e :
  type_answer client = (keyType, Some e) -> ~ type_accepted client.
Proof. intros Ha (kt & Hkt & _). rewrite Ha in Hkt. discriminate. Qed.

(** C7. In stream mode the constructor of the stream iterator and the
    destination's [validateKey] first ask the type of the key and go on only
    when the answer is ["none"] or ["stream"]; otherwise they return an
    error, the constructor without an iterator and so without any
    goroutine started. *)
Theorem stream_key_type_checked (client : conn) (key : string) (interval : Z)
    (position : string) (d : Destination.Destination) :
  Config.Mode (Destination.config d) = Config.ModeStream ->
  match NewStreamIterator client key interval position with
  | Ret (Started i p f) =>
    type_accepted client /\ p = AtSelect /\ f = FAtSelect /\ Tomb.alive (tomb i) = 2 /\
    exists c, Stream.client i = Some c /\ sent c = sent client ++ [Cmd "TYPE" [AStr key]]
  | Ret (Failed err c) =>
    ~ type_accepted client /\ sent c = sent client ++ [Cmd "TYPE" [AStr key]]
  | Panic _ => type_accepted client /\ (interval <= 0)%Z
  end /\
  (let '(c, err) := Destination.validateKey d client in
   (err = None <-> type_accepted client) /\
   sent c = sent client ++ [Cmd "TYPE" [AStr (Config.RedisKey (Destination.config d))]] /\
   Destination.Open d (inl client) = (Destination.set_client (Some c) d, err)).
Proof.
  intros Hmode. split.
  - unfold NewStreamIterator. cbn [conn_Do].
    fold (type_answer client).
    destruct (type_answer client) as [keyType [e|]] eqn:Ha.
    + split; [eapply type_rejected_error; exact Ha|reflexivity].
    + pose proof (type_accepted_iff client keyType Ha) as Hacc.
      pose proof (type_check_accepts keyType) as Hchk.
      unfold keyTypeNone, keyTypeStream in *.
      destruct (negb (String.eqb keyType "none") && negb (String.eqb keyType "stream")).
      * split; [|reflexivity]. intros H. apply Hacc, Hchk in H. discriminate.
      * assert (Hok : type_accepted client) by (apply Hacc, Hchk; reflexivity).
        destruct (interval <=? 0)%Z eqn:Hi.
        -- split; [exact Hok|]. apply Z.leb_le, Hi.
        -- cbn. repeat split; try exact Hok. eexists. split; reflexivity.
  - unfold Destination.Open, Destination.validateKey. rewrite Hmode.
    cbn [String.eqb Config.ModeStream Config.ModePubSub Ascii.eqb Bool.eqb conn_Do].
    fold (type_answer client).
    destruct (type_answer client) as [keyType [e|]] eqn:Ha.
    + repeat split; try discriminate.
      intros H. exfalso. eapply type_rejected_error; eassumption.
    + pose proof (type_accepted_iff client keyType Ha) as Hacc.
      pose proof (type_check_accepts keyType) as Hchk.
      unfold Destination.keyTypeNone, Destination.keyTypeStream, keyTypeNone, keyTypeStream in *.
      destruct (negb (String.eqb keyType "none") && negb (String.eqb keyType "stream")).
      * repeat split; try discriminate.
        intros H. apply Hacc, Hchk in H. discriminate.
      * repeat split. intros _. apply Hacc, Hchk. reflexivity.
Qed.

(** *** Stop *)

(** C9. [Stop] on an iterator that holds its connection, when [Close]
    succeeds: the ticker is stopped, the tomb is dying (with the reason
    "iterator stopped" when it was alive), the connection has been closed
    once more and the iterator's reference to it is nil, so that a second
    [Stop] on the same iterator faults on the nil reference; [Teardown]
    calls [Stop] once and drops the iterator, and a second [Teardown]
    returns nil and changes nothing. *)
Theorem Stop_once (i : StreamIterator) (c : conn) (cfg : Config.Config) :
  client i = Some c ->
  close_answer c = None ->
  exists i' c',
    Stop i = Ret (i', None, c') /\
    ticker_stopped (ticker i') = true /\
    Tomb.Dying (tomb i') = true /\
    (Tomb.Alive (tomb i) = true -> Tomb.Err (tomb i') = Some err_stopped) /\
    closed c' = S (closed c) /\
    client i' = None /\
    Stop i' = Panic nil_dereference /\
    Source.Teardown (Source.MkSource cfg (Some (Source.OfStream i)))
    = Ret (Source.MkSource cfg None, None) /\
    Source.Teardown (Source.MkSource cfg None) = Ret (Source.MkSource cfg None, None).
Proof.
  intros Hc Hclose.
  assert (Hstop : Stop i
                  = Ret (set_client None
                           (set_tomb (Tomb.Kill (Some err_stopped) (tomb i))
                              (set_ticker (MkTicker true (pending (ticker i))) i)),
                         None, (conn_Close c).2)).
  { unfold Stop. cbn. rewrite Hc. cbn. rewrite Hclose. reflexivity. }
  eexists. eexists. split; [exact Hstop|].
  split; [reflexivity|].
  split; [unfold Tomb.Dying; cbn; rewrite Kill_not_alive; reflexivity|].
  split.
  { unfold Tomb.Alive, Tomb.Err, Tomb.Kill. cbn.
    destruct (Tomb.why (tomb i)); [reflexivity|discriminate]. }
  split; [reflexivity|]. split; [reflexivity|]. split; [reflexivity|].
  split; [|reflexivity].
  unfold Source.Teardown, Source.Iterator_Stop. cbn [Source.iterator].
  rewrite Hstop. reflexivity.
Qed.

Section WithLibraries.

Variable json_quote : string -> string.
Variable now : nat -> Z.

Abbreviation toRecords := (Decode.toRecords json_quote now).
Abbreviation poll_tick := (Stream.poll_tick json_quote now).
Abbreviation step := (Stream.step json_quote now).
Abbreviation steps := (Stream.steps json_quote now).
Abbreviation exec := (Stream.exec json_quote now).
Abbreviation run := (Stream.run json_quote now).
Abbreviation reachable := (Stream.reachable json_quote now).

(** The read and the decoding touch neither the channels, nor the tomb, nor
    the cursor. *)
Lemma poll_tick_frame i i' p :
  poll_tick i = (i', p) ->
  caches i' = caches i /\ buffer i' = buffer i /\ lastID i' = lastID i /\ tomb i' = tomb i.
Proof.
  unfold Stream.poll_tick. destruct (client i) as [c|].
  - cbn. destruct (redis_Values _) as [resp [e|]].
    + destruct (error_beq e redis_ErrNil); intros H; injection H as <- _; repeat split.
    + destruct (Stream.toRecords json_quote now resp) as [[recs [e|]]|msg];
        intros H; injection H as <- _; repeat split.
  - intros H; injection H as <- _; repeat split.
Qed.

(** What the scheduler performs is a step. *)
Lemma exec_step a s s' : exec a s = Some s' -> step s s'.
Proof.
  destruct s as [i p f]. unfold Stream.exec. cbn [it poll flush].
  destruct a.
  - destruct (ticker_stopped (ticker i)) eqn:Ht; [discriminate|].
    intros H; injection H as <-. apply step_clock, Ht.
  - intros H; injection H as <-. apply step_context_done.
  - destruct p; try discriminate. destruct (pending (ticker i)) eqn:Hp; [|discriminate].
    destruct (Stream.poll_tick _ _ _) as [i' p'] eqn:Ht.
    intros H; injection H as <-. eapply step_poll_tick; eassumption.
  - destruct p; try discriminate; destruct (Tomb.Dying (tomb i)) eqn:Hd; try discriminate;
      intros H; injection H as <-.
    + eapply step_poll_dying; [exact Hd|reflexivity].
    + eapply step_poll_handoff_dying; [exact Hd|reflexivity].
  - destruct p as [|recs| | |]; try discriminate.
    destruct (can_send (caches i)) eqn:Hc; [|discriminate].
    destruct (poll_send recs i) as [i' p'] eqn:Hs.
    intros H; injection H as <-. eapply step_poll_send; eassumption.
  - destruct p; try discriminate. intros H; injection H as <-.
    eapply step_poll_exit. reflexivity.
  - destruct f; try discriminate. destruct (items (caches i)) eqn:Hi.
    + destruct (chan_closed (caches i)) eqn:Hc; [|discriminate].
      destruct (flush_recv i) as [i' f'] eqn:Hr. intros H; injection H as <-.
      eapply step_flush_recv; [right; exact Hc|exact Hr].
    + destruct (flush_recv i) as [i' f'] eqn:Hr. intros H; injection H as <-.
      eapply step_flush_recv; [left; rewrite Hi; discriminate|exact Hr].
  - destruct f; try discriminate; destruct (Tomb.Dying (tomb i)) eqn:Hd; try discriminate;
      intros H; injection H as <-.
    + eapply step_flush_dying; [exact Hd|reflexivity].
    + eapply step_flush_range_dying; [exact Hd|reflexivity].
  - destruct f as [|[|r rest]| |]; try discriminate.
    destruct (can_send (buffer i)) eqn:Hc; [|discriminate].
    intros H; injection H as <-. eapply step_flush_send; [exact Hc|reflexivity].
  - destruct f; try discriminate. intros H; injection H as <-.
    eapply step_flush_exit. reflexivity.
  - destruct (items (buffer i)) as [|rec rest] eqn:Hi; [discriminate|].
    intros H; injection H as <-. eapply (step_Next _ _ _ _ _ None). apply Next_record, Hi.
  - destruct (Stop i) as [[[i' err] c]|] eqn:Hs; [|discriminate].
    intros H; injection H as <-. eapply step_Stop. exact Hs.
Qed.

Lemma run_steps acts : forall s s', run acts s = Some s' -> steps s s'.
Proof.
  assert (Htrans : forall s1 s2 s3, steps s1 s2 -> steps s2 s3 -> steps s1 s3).
  { intros s1 s2 s3 H12 H23. induction H23 as [|s2 s3 s4 _ IH23 Hlast]; [assumption|].
    eapply steps_step; [apply IH23; assumption|exact Hlast]. }
  induction acts as [|a rest IH]; cbn; intros s s' H.
  - injection H as <-. apply steps_refl.
  - destruct (Stream.exec _ _ a s) as [s1|] eqn:He; [|discriminate].
    eapply Htrans; [|apply IH, H].
    eapply steps_step; [apply steps_refl|apply (exec_step a), He].
Qed.

Lemma start_run_reachable client key interval position acts s0 s :
  start client key interval position = Some s0 ->
  run acts s0 = Some s ->
  reachable s.
Proof.
  unfold start. intros Hs Hr.
  destruct (NewStreamIterator client key interval position) as [[i p f|]|] eqn:Hn;
    try discriminate.
  injection Hs as <-.
  exists client, key, interval, position, i, p, f. split; [exact Hn|].
  apply run_steps with acts, Hr.
Qed.

(** *** The cursor *)

Lemma toRecords_ids_positions key ref idList :
  forall st st',
    Decode.toRecords_ids json_quote now key ref idList st = Ret (st', None) ->
    List.map Position (records st')
    = List.map Position (records st) ++ omap id_of_entry idList.
Proof.
  induction idList as [|iID rest IH]; intros st st' H.
  - cbn in H. injection H as <-. cbn. rewrite app_nil_r. reflexivity.
  - cbn [Decode.toRecords_ids] in H. unfold parsePositionData in H.
    destruct iID as [| | | |idInfo|]; try discriminate H.
    change (omap id_of_entry (RArr idInfo :: rest))
      with (match id_of_entry (RArr idInfo) with
            | Some y => y :: omap id_of_entry rest
            | None => omap id_of_entry rest
            end).
    unfold id_of_entry at 1.
    destruct (idInfo !! 0) as [[| | |position| |]|]; try discriminate H.
    destruct (idInfo !! 1) as [[| | | |fieldList|]|]; try discriminate H.
    cbn [go_bind] in H.
    destruct (arrInterfaceToMap fieldList) as [[m [e|]]|]; try discriminate H.
    cbn [go_bind] in H.
    destruct (getTimeFromPosition now position (clock st)) as [t clock'].
    apply IH in H. rewrite H. cbn [records]. rewrite map_app. cbn.
    rewrite <- app_assoc. reflexivity.
Qed.

Lemma toRecords_keys_positions resp :
  forall st st',
    Decode.toRecords_keys json_quote now resp st = Ret (st', None) ->
    List.map Position (records st')
    = List.map Position (records st) ++ entry_ids resp.
Proof.
  induction resp as [|iKey rest IH]; intros st st' H.
  - cbn in H. injection H as <-. cbn. rewrite app_nil_r. reflexivity.
  - cbn [Decode.toRecords_keys] in H.
    unfold parseKeyData in H. unfold entry_ids in *. cbn [List.map concat].
    unfold ids_of_key at 1.
    destruct iKey as [| | | |keyInfo|]; try discriminate H.
    destruct (keyInfo !! 0) as [[| | |key| |]|]; try discriminate H.
    destruct (keyInfo !! 1) as [[| | | |idList|]|]; try discriminate H.
    cbn [go_bind] in H.
    destruct (Decode.toRecords_ids _ _ _ _ _ _) as [[st1 [e|]]|] eqn:Hids; try discriminate H.
    cbn [go_bind] in H.
    apply toRecords_ids_positions in Hids. apply IH in H.
    rewrite H, Hids. cbn [records]. rewrite <- app_assoc. reflexivity.
Qed.

Lemma toRecords_positions resp recs :
  toRecords resp = Ret (recs, None) -> List.map Position recs = entry_ids resp.
Proof.
  unfold Decode.toRecords.
  destruct (Decode.toRecords_keys _ _ _ _) as [[st [e|]]|] eqn:H; try discriminate.
  cbn. intros Heq. injection Heq as <-.
  apply toRecords_keys_positions in H. exact H.
Qed.

(** A response with an entry decodes, when it decodes, to a batch that is
    not empty. *)
Lemma decoded_batch_nonempty resp recs :
  toRecords resp = Ret (recs, None) -> entry_ids resp <> [] -> recs <> [].
Proof.
  intros Hdec Hne ->. apply toRecords_positions in Hdec. cbn in Hdec. auto.
Qed.

(** What [poll_tick] does when the store answers an array. *)
Lemma poll_tick_reply i resp :
  next_reply i = Some resp ->
  exists c,
    poll_tick i
    = match toRecords resp with
      | Panic msg => (set_client (Some c) i, Faulted msg)
      | Ret (_, Some e) =>
        (set_client (Some c) i,
         Returned (Some (ErrWrap "error converting stream data to records: " e)))
      | Ret (recs, None) => (set_client (Some c) i, AtHandoff recs)
      end.
Proof.
  unfold next_reply, Stream.poll_tick. destruct (client i) as [c|]; [|discriminate].
  cbn [conn_Do]. destruct (answers c (length (sent c))) as [[| | | |l|]|]; try discriminate.
  intros H. injection H as ->. cbn [redis_Values]. eexists. reflexivity.
Qed.






(** *** The two channels *)

Lemma can_send_room {A} (c : chan A) x :
  cap c = 1 -> can_send c = true -> length (items (chan_send x c)) <= 1.
Proof.
  unfold can_send. intros -> H. apply Nat.ltb_lt in H. cbn. rewrite length_app. cbn. lia.
Qed.

Lemma step_within_capacity s s' : step s s' -> within_capacity s -> within_capacity s'.
Proof.
  unfold within_capacity, pending_batches, pending_records, chan_len.
  intros Hstep. destruct Hstep; cbn [it]; intros (Hc1 & Hc2 & Hl1 & Hl2).
  - auto.
  - auto.
  - match goal with H : Stream.poll_tick _ _ _ = _ |- _ =>
      apply poll_tick_frame in H; destruct H as (-> & -> & _) end. auto.
  - match goal with H : poll_dying _ = _ |- _ => injection H as <- _ end. auto.
  - match goal with H : poll_send _ _ = _ |- _ => unfold poll_send in H;
      destruct (last _); injection H as <- _ end;
      cbn; repeat split; auto; apply can_send_room; assumption.
  - match goal with H : poll_dying _ = _ |- _ => injection H as <- _ end. auto.
  - match goal with H : poll_exit _ _ = _ |- _ => injection H as <- _ end. cbn. auto.
  - match goal with H : flush_recv _ = _ |- _ => unfold flush_recv in H;
      destruct (items (caches i)) eqn:Hi; injection H as <- _ end;
      cbn; repeat split; auto; [rewrite Hi; cbn; lia|cbn in Hl1; lia].
  - match goal with H : flush_dying _ = _ |- _ => injection H as <- _ end. auto.
  - match goal with H : flush_send _ _ _ = _ |- _ => injection H as <- _ end.
    cbn. repeat split; auto. apply can_send_room; assumption.
  - match goal with H : flush_dying _ = _ |- _ => injection H as <- _ end. auto.
  - match goal with H : flush_exit _ _ = _ |- _ => injection H as <- _ end. cbn. auto.
  - match goal with H : Next _ _ _ _ _ |- _ => destruct H as [i0 rec rest Hi| | |] end; auto.
    cbn. repeat split; auto. rewrite Hi in Hl2. cbn in Hl2. lia.
  - match goal with H : Stop _ = _ |- _ =>
      apply Stop_frame in H; destruct H as (-> & -> & _) end. auto.
Qed.

Lemma steps_within_capacity s s' : steps s s' -> within_capacity s -> within_capacity s'.
Proof.
  induction 1 as [|s1 s2 s3 _ IH Hlast]; intros H; [exact H|].
  eapply step_within_capacity; [exact Hlast|apply IH, H].
Qed.

Lemma started_within_capacity client key interval position i p f :
  NewStreamIterator client key interval position = Ret (Started i p f) ->
  within_capacity (MkPipeline i p f).
Proof.
  unfold NewStreamIterator. cbn [conn_Do].
  destruct (redis_String _) as [keyType [e|]]; [discriminate|].
  destruct (negb _ && negb _); [discriminate|].
  destruct (interval <=? 0)%Z; [discriminate|].
  intros H. injection H as <- _ _.
  unfold within_capacity, pending_batches, pending_records, chan_len. cbn. lia.
Qed.

(** C6. In every state of a pipeline that [NewStreamIterator] started, the
    batch channel holds at most one batch and the record channel at most
    one record; besides the batch in the channel there is at most one batch
    that the poll goroutine holds while it waits at the handoff and at most
    one that the flush goroutine is unrolling: at most three batches and
    one record, whatever the length of the log. *)
Theorem in_flight_bounded (s : pipeline) :
  reachable s ->
  pending_batches s <= 1 /\
  pending_records s <= 1 /\
  held_by_poll (poll s) <= 1 /\
  held_by_flush (flush s) <= 1 /\
  batches_in_flight s <= 3.
Proof.
  intros (client & key & interval & position & i & p & f & Hnew & Hsteps).
  apply started_within_capacity in Hnew.
  pose proof (steps_within_capacity _ _ Hsteps Hnew) as (_ & _ & Hb & Hr).
  assert (Hp : held_by_poll (poll s) <= 1) by (destruct (poll s); cbn; lia).
  assert (Hf : held_by_flush (flush s) <= 1) by (destruct (flush s); cbn; lia).
  unfold batches_in_flight. repeat split; try assumption. lia.
Qed.

(** *** A decoding error *)

Lemma poll_stays_exited i f s' : step (MkPipeline i Exited f) s' -> poll s' = Exited.
Proof. intros H. inversion H; reflexivity. Qed.

(** C5. When the answer to a read has, after well-formed entries, an entry
    whose field list has odd length: decoding returns the error that names
    the length, with records for the entries before it only; the poll
    goroutine hands nothing off, leaves the cursor, and returns the error;
    with that the tomb is no longer alive and holds the error (when it was
    alive before), and the poll goroutine takes no further step. *)
Theorem odd_field_list_is_fatal (i : StreamIterator) (before : list reply) (key : string)
    (entries : list reply) (position : string) (fieldList rest_entries rest_keys : list reply) :
  let resp := odd_response before key entries position fieldList rest_entries rest_keys in
  let cause := ErrWrap err_to_map (err_odd_values (length fieldList)) in
  let err := ErrWrap "error converting stream data to records: " cause in
  next_reply i = Some resp ->
  well_formed before = true ->
  forallb wf_entry entries = true ->
  length fieldList mod 2 = 1 ->
  (exists recs,
      toRecords resp = Ret (recs, Some cause) /\
      List.map Position recs = entry_ids before ++ omap id_of_entry entries) /\
  exists i1 i2,
    poll_tick i = (i1, Returned (Some err)) /\
    caches i1 = caches i /\ lastID i1 = lastID i /\
    poll_exit (Some err) i1 = (i2, Exited) /\
    Tomb.Alive (tomb i2) = false /\
    (Tomb.Alive (tomb i) = true -> Tomb.Err (tomb i2) = Some err) /\
    (forall f s', step (MkPipeline i2 Exited f) s' -> poll s' = Exited).
Proof.
  intros resp cause err Hreply Hwf Hent Hodd.
  destruct (DecodeProps.toRecords_odd json_quote now before key entries position fieldList
              rest_entries rest_keys Hwf Hent Hodd) as (recs & Hdec & Hpos).
  fold resp cause in Hdec.
  split; [exists recs; split; assumption|].
  destruct (poll_tick_reply i resp Hreply) as (c & Htick).
  rewrite Hdec in Htick. fold err in Htick.
  eexists. eexists. split; [exact Htick|].
  split; [reflexivity|]. split; [reflexivity|]. split; [reflexivity|].
  split; [apply run_returned_error|].
  split; [|intros f s'; apply poll_stays_exited].
  cbn. unfold Tomb.Alive, Tomb.Err, Tomb.run_returned, Tomb.Kill.
  rewrite orb_true_r. cbn.
  destruct (Tomb.why (tomb i)); [reflexivity|discriminate].
Qed.

End WithLibraries.

(** *** Concrete runs *)

Import Samples.

Lemma started_by_constructor c position :
  type_answer c = ("stream"%string, None) ->
  position <> ""%string ->
  NewStreamIterator c "mystream" 1000 position
  = Ret (Started (started c position) AtSelect FAtSelect).
Proof.
  unfold NewStreamIterator, type_answer. cbn [conn_Do]. intros -> Hp.
  cbn. destruct (String.eqb_spec position ""); [contradiction|]. reflexivity.
Qed.

Lemma after_reachable c position acts s :
  type_answer c = ("stream"%string, None) ->
  position <> ""%string ->
  Stream.run quote now acts (pipeline_of (started c position)) = Some s ->
  Stream.reachable quote now s.
Proof.
  intros Ht Hp Hrun.
  eapply start_run_reachable; [|exact Hrun].
  unfold start. rewrite (started_by_constructor c position Ht Hp). reflexivity.
Qed.



(** C6, as stated, fails: after two batches have been handed off and a third
    decoded, the flush goroutine is unrolling the first, the second waits
    in the channel, and the poll goroutine holds the third. *)
Lemma three_batches_in_flight :
  Stream.run quote now fill_up (pipeline_of (started three_batches "0-0"))
  = Some (after fill_up (started three_batches "0-0")) /\
  Stream.reachable quote now (after fill_up (started three_batches "0-0")) /\
  held_by_flush (flush (after fill_up (started three_batches "0-0"))) = 1 /\
  pending_batches (after fill_up (started three_batches "0-0")) = 1 /\
  held_by_poll (poll (after fill_up (started three_batches "0-0"))) = 1 /\
  pending_records (after fill_up (started three_batches "0-0")) = 1 /\
  batches_in_flight (after fill_up (started three_batches "0-0")) = 3.
Proof.
  split; [vm_compute; reflexivity|].
  split; [|repeat split; vm_compute; reflexivity].
  apply (after_reachable three_batches "0-0" fill_up).
  - reflexivity.
  - discriminate.
  - vm_compute. reflexivity.
Qed.

Lemma in_flight_bounded_witness :
  pending_batches (after fill_up (started three_batches "0-0")) <= 1 /\
  pending_records (after fill_up (started three_batches "0-0")) <= 1 /\
  held_by_poll (poll (after fill_up (started three_batches "0-0"))) <= 1 /\
  held_by_flush (flush (after fill_up (started three_batches "0-0"))) <= 1 /\
  batches_in_flight (after fill_up (started three_batches "0-0")) <= 3.
Proof.
  apply (in_flight_bounded quote now).
  apply (after_reachable three_batches "0-0" fill_up).
  - reflexivity.
  - discriminate.
  - vm_compute. reflexivity.
Defined.

(** C8. The store answers a read with an array of no entries: the read
    returns no error, decoding returns an empty batch and no error, the
    batch is sent, and taking its last record faults. *)
Theorem empty_batch_faults :
  redis_Values (inl (RArr [])) = ([], None) /\
  Decode.toRecords quote now [] = Ret ([], None) /\
  Stream.run quote now [Clock; PollTick] (pipeline_of (started no_entries "0-0"))
  = Some (after [Clock; PollTick] (started no_entries "0-0")) /\
  poll (after [Clock; PollTick] (started no_entries "0-0")) = AtHandoff [] /\
  Stream.run quote now [Clock; PollTick; PollSend] (pipeline_of (started no_entries "0-0"))
  = Some (after [Clock; PollTick; PollSend] (started no_entries "0-0")) /\
  poll (after [Clock; PollTick; PollSend] (started no_entries "0-0"))
  = Faulted index_out_of_range /\
  Stream.reachable quote now (after [Clock; PollTick; PollSend] (started no_entries "0-0")).
Proof.
  repeat split; try (vm_compute; reflexivity).
  apply (after_reachable no_entries "0-0" [Clock; PollTick; PollSend]).
  - reflexivity.
  - discriminate.
  - vm_compute. reflexivity.
Qed.

(** C9, as stated, fails: the first [Stop] closes the connection and returns
    nil, the second faults. *)
Lemma second_Stop_faults :
  exists i' c',
    Stop (started later_entry "5-0") = Ret (i', None, c') /\
    closed c' = 1 /\
    Stop i' = Panic nil_dereference.
Proof. eexists. eexists. repeat split. Qed.

Lemma Stop_once_witness :
  exists i' c',
    Stop (started later_entry "5-0") = Ret (i', None, c') /\
    ticker_stopped (ticker i') = true /\
    Tomb.Dying (tomb i') = true /\
    Tomb.Err (tomb i') = Some err_stopped /\
    closed c' = 1 /\
    client i' = None /\
    Stop i' = Panic nil_dereference.
Proof.
  destruct (Stop_once (started later_entry "5-0")
              (conn_Do later_entry "TYPE" [AStr "mystream"]).2
              (Config.MkConfig "localhost" "6379" "mystream" 0 "" "" "stream" 1000)
              eq_refl eq_refl)
    as (i' & c' & H1 & H2 & H3 & H4 & H5 & H6 & H7 & _).
  exists i', c'. repeat split; try assumption. apply H4. reflexivity.
Defined.

Lemma stream_key_type_checked_witness :
  NewStreamIterator type_hash "mykey" 1000 "" 
  = Ret (Failed (ErrNew "invalid key type: hash, expected none or stream")
           (conn_Do type_hash "TYPE" [AStr "mykey"]).2) /\
  ~ type_accepted type_hash /\
  (Destination.validateKey
     (Destination.MkDestination
        (Config.MkConfig "localhost" "6379" "mykey" 0 "" "" "stream" 1000) None)
     type_hash).2
  = Some (ErrNew "invalid key type: hash, expected none or stream").
Proof.
  pose proof (stream_key_type_checked type_hash "mykey" 1000 ""
                (Destination.MkDestination
                   (Config.MkConfig "localhost" "6379" "mykey" 0 "" "" "stream" 1000) None)
                eq_refl) as [Hnew Hval].
  split; [reflexivity|]. split; [|reflexivity].
  exact (proj1 Hnew).
Defined.

Lemma odd_field_list_is_fatal_witness :
  exists i1 i2,
    Stream.poll_tick quote now (started odd_entry "0-0")
    = (i1, Returned (Some (ErrWrap "error converting stream data to records: "
                             (ErrWrap err_to_map (err_odd_values 3))))) /\
    caches i1 = caches (started odd_entry "0-0") /\
    lastID i1 = "0-0"%string /\
    poll_exit (Some (ErrWrap "error converting stream data to records: "
                       (ErrWrap err_to_map (err_odd_values 3)))) i1 = (i2, Exited) /\
    Tomb.Alive (tomb i2) = false /\
    error_message (ErrWrap err_to_map (err_odd_values 3))
    = "error converting the []interface{} to map: arrInterfaceToMap expects even number of values result, got 3"%string.
Proof.
  destruct (odd_field_list_is_fatal quote now (started odd_entry "0-0")
              [] "mystream" [entry "1-0" ["a"; "1"]] "2-0"
              [RBulk "a"; RBulk "1"; RBulk "b"] [] []
              eq_refl eq_refl eq_refl eq_refl)
    as (_ & i1 & i2 & H1 & H2 & H3 & H4 & H5 & _).
  exists i1, i2. repeat split; assumption.
Defined.

End StreamProps.

(** ** The destination writer *)

Module DestinationProps.

Import Config Destination.

Section WithLibraries.

Variable json_Unmarshal : string -> list (string * jvalue) + error.

Abbreviation payloadToStreamArgs := (Destination.payloadToStreamArgs json_Unmarshal).
Abbreviation Write_stream := (Destination.Write_stream json_Unmarshal).
Abbreviation Write := (Destination.Write json_Unmarshal).
Abbreviation record_command := (Destination.record_command json_Unmarshal).
Abbreviation applies := (Destination.applies json_Unmarshal).
Abbreviation first_failure := (Destination.first_failure json_Unmarshal).

Lemma continues_Do d0 c0 d c name args :
  continues d0 c0 d c ->
  continues d0 c0 (set_client (Some (conn_Do c name args).2) d) (conn_Do c name args).2.
Proof. intros (Hc & Hcfg & Ha & Hw). repeat split; assumption. Qed.

Lemma take_S_cons {A} (x : A) l k : take (S k) (x :: l) = x :: take k l.
Proof. reflexivity. Qed.

Lemma Write_pubsub_counts d0 c0 rec :
  Mode (config d0) = ModePubSub ->
  forallb has_payload rec = true ->
  forall i d c,
    continues d0 c0 d c ->
    match first_failure d0 c0 (length (sent c)) rec with
    | None =>
      exists d' c',
        Write_pubsub (RedisKey (config d0)) i rec d = Ret (d', None) /\
        continues d0 c0 d' c' /\
        sent c' = sent c ++ omap (record_command d0 c0) rec
    | Some k =>
      exists d' c' e,
        Write_pubsub (RedisKey (config d0)) i rec d = Ret (d', Some (i + k, e)) /\
        continues d0 c0 d' c' /\
        sent c' = sent c ++ omap (record_command d0 c0) (take (S k) rec)
    end.
Proof.
  intros Hmode. induction rec as [|r rest IH]; intros Hpay i d c Hcont.
  - cbn. exists d, c. rewrite app_nil_r. auto.
  - pose proof Hcont as (Hc & Hcfg & Ha & Hw).
    cbn [forallb] in Hpay. apply andb_prop in Hpay as [Hr Hpay].
    unfold has_payload in Hr.
    destruct (PayloadAfter r) as [bytes|] eqn:Hbytes; [clear Hr|discriminate Hr].
    specialize (IH Hpay).
    cbn [Destination.first_failure Write_pubsub]. rewrite Hbytes. cbn [Data_Bytes go_bind].
    set (args := [AStr (RedisKey (config d0)); AStr bytes]).
    set (sentargs := if with_context c0 then args else [AArgs args]).
    assert (Hcmd : record_command d0 c0 r = Some (Cmd "PUBLISH" sentargs)).
    { unfold Destination.record_command. rewrite Hbytes, Hmode. reflexivity. }
    unfold Destination.applies. rewrite Hcmd.
    unfold doWithCtx, client_Do. rewrite Hc, Hw.
    assert (Hdo : (if with_context c0
                   then let '(r0, c1) := conn_Do c "PUBLISH" args in
                        Ret (r0, set_client (Some c1) d)
                   else let '(r0, c1) := conn_Do c "PUBLISH" [AArgs args] in
                        Ret (r0, set_client (Some c1) d))
                  = Ret (answers c0 (length (sent c)),
                         set_client (Some (conn_Do c "PUBLISH" sentargs).2) d)).
    { unfold sentargs, conn_Do. rewrite Ha. destruct (with_context c0); reflexivity. }
    rewrite Hdo. cbn [go_bind].
    pose proof (continues_Do d0 c0 d c "PUBLISH" sentargs Hcont) as Hcont'.
    assert (Hsent : sent (conn_Do c "PUBLISH" sentargs).2
                    = sent c ++ [Cmd "PUBLISH" sentargs]) by reflexivity.
    destruct (answers c0 (length (sent c))) as [ok|e] eqn:Hans; cbn [accepted].
    + specialize (IH (S i) _ _ Hcont'). rewrite Hsent, length_app in IH. cbn [length] in IH.
      replace (length (sent c) + 1) with (S (length (sent c))) in IH by lia.
      destruct (first_failure d0 c0 (S (length (sent c))) rest) as [k|]; cbn [option_map].
      * destruct IH as (d' & c' & e & Hrun & Hcont2 & Hs).
        exists d', c', e. replace (i + S k) with (S i + k) by lia.
        split; [exact Hrun|]. split; [exact Hcont2|].
        rewrite Hs, take_S_cons. cbn [omap list_omap]. rewrite Hcmd, <- app_assoc. reflexivity.
      * destruct IH as (d' & c' & Hrun & Hcont2 & Hs).
        exists d', c'. split; [exact Hrun|]. split; [exact Hcont2|].
        rewrite Hs. cbn [omap list_omap]. rewrite Hcmd, <- app_assoc. reflexivity.
    + eexists. eexists. eexists. rewrite Nat.add_0_r.
      split; [reflexivity|]. split; [exact Hcont'|].
      rewrite Hsent. cbn [take omap list_omap]. rewrite Hcmd. reflexivity.
Qed.


(** [first_failure] is the least index of a record that does not apply. *)
Lemma first_failure_None d c rec :
  forall n,
    (forall j r, rec !! j = Some r -> applies d c (n + j) r = true) ->
    first_failure d c n rec = None.
Proof.
  induction rec as [|r rest IH]; intros n H; [reflexivity|].
  cbn [Destination.first_failure].
  pose proof (H 0 r eq_refl) as H0. rewrite Nat.add_0_r in H0. rewrite H0.
  rewrite IH; [reflexivity|].
  intros j r' Hj. replace (S n + j) with (n + S j) by lia. apply H. exact Hj.
Qed.









(** What [Write] returns, from what its loop does; the same for the two
    loops. *)
Section Loop.

Variable loop : string -> nat -> list record -> Destination
                -> go (Destination * option (nat * error)).
Variable d0 : Destination.
Variable c0 : conn.

Hypothesis loop_counts : forall rec,
  forallb has_payload rec = true ->
  forall i d c,
    continues d0 c0 d c ->
    match first_failure d0 c0 (length (sent c)) rec with
    | None =>
      exists d' c',
        loop (RedisKey (config d0)) i rec d = Ret (d', None) /\
        continues d0 c0 d' c' /\
        sent c' = sent c ++ omap (record_command d0 c0) rec
    | Some k =>
      exists d' c' e,
        loop (RedisKey (config d0)) i rec d = Ret (d', Some (i + k, e)) /\
        continues d0 c0 d' c' /\
        sent c' = sent c ++ omap (record_command d0 c0) (take (S k) rec)
    end.

Hypothesis loop_app : forall key before rest i d,
  loop key i (before ++ rest) d
  = do* (d', early) <- loop key i before d;
    match early with
    | Some x => Ret (d', Some x)
    | None => loop key (i + length before) rest d'
    end.

Hypothesis loop_nil : forall key i r rest d,
  PayloadAfter r = None -> loop key i (r :: rest) d = Panic nil_dereference.


End Loop.


End WithLibraries.



End DestinationProps.

(** ** More on decoding *)

Module DecodeExtras.

Import Decode Response DecodeProps.

(** *** Where the two parsers fault *)

(** [parseKeyData] and [parsePositionData] index the first two elements of
    an array without a length check: each faults exactly on the empty
    array and on an array of one bulk string, and returns (a result or an
    error) on everything else. *)
Theorem parsers_fault_on_short_arrays (d : reply) :
  ((exists msg, parseKeyData d = Panic msg) <->
   (exists keyInfo, d = RArr keyInfo /\ (keyInfo = [] \/ exists k, keyInfo = [RBulk k]))) /\
  ((exists msg, parsePositionData d = Panic msg) <->
   (exists idInfo, d = RArr idInfo /\ (idInfo = [] \/ exists p, idInfo = [RBulk p]))).
Proof.
  split; split.
  - intros [msg H]. destruct d as [| | | |keyInfo|]; try discriminate H.
    exists keyInfo. split; [reflexivity|].
    destruct keyInfo as [|k0 [|k1 rest]]; [left; reflexivity| |].
    + right. destruct k0; try discriminate H. eexists. reflexivity.
    + exfalso. destruct k0; try discriminate H. destruct k1; discriminate H.
  - intros (keyInfo & -> & [->|[k ->]]); eexists; reflexivity.
  - intros [msg H]. destruct d as [| | | |idInfo|]; try discriminate H.
    exists idInfo. split; [reflexivity|].
    destruct idInfo as [|k0 [|k1 rest]]; [left; reflexivity| |].
    + right. destruct k0; try discriminate H. eexists. reflexivity.
    + exfalso. destruct k0; try discriminate H. destruct k1; discriminate H.
  - intros (idInfo & -> & [->|[k ->]]); eexists; reflexivity.
Qed.

Section WithLibraries.

Variable json_quote : string -> string.
Variable now : nat -> Z.

Abbreviation toRecords := (toRecords json_quote now).
Abbreviation toRecords_heap := (toRecords_heap json_quote now).
Abbreviation toRecords_keys := (toRecords_keys json_quote now).
Abbreviation toRecords_ids := (toRecords_ids json_quote now).

(** *** Decoding without fault *)

Lemma arrInterfaceToMap_loop_returns values :
  forall i m,
    length values mod 2 = 0 ->
    exists m' err, arrInterfaceToMap_loop i values m = Ret (m', err).
Proof.
  induction values as [|a|a b l IH] using even_list_ind; intros i m Hlen.
  - eexists. eexists. reflexivity.
  - discriminate Hlen.
  - cbn [length] in Hlen. rewrite mod2_SS in Hlen.
    destruct a; try (eexists; eexists; reflexivity).
    destruct b; try (eexists; eexists; reflexivity).
    cbn [arrInterfaceToMap_loop]. apply IH, Hlen.
Qed.

Lemma arrInterfaceToMap_returns values :
  exists m err, arrInterfaceToMap values = Ret (m, err).
Proof.
  unfold arrInterfaceToMap. destruct (length values mod 2 =? 0) eqn:He; cbn [negb].
  - apply arrInterfaceToMap_loop_returns, Nat.eqb_eq, He.
  - eexists. eexists. reflexivity.
Qed.

Lemma toRecords_ids_returns key ref idList :
  forall st,
    forallb sized_entry idList = true ->
    exists st' err, toRecords_ids key ref idList st = Ret (st', err).
Proof.
  induction idList as [|iID rest IH]; intros st Hs.
  - eexists. eexists. reflexivity.
  - cbn [forallb] in Hs. apply andb_prop in Hs as [He Hrest].
    cbn [Decode.toRecords_ids].
    destruct iID as [| | | |idInfo|]; try (eexists; eexists; reflexivity).
    destruct idInfo as [|i0 [|i1 more]]; try discriminate He.
    destruct i0; try (eexists; eexists; reflexivity).
    destruct i1 as [| | | |fieldList|]; try (eexists; eexists; reflexivity).
    cbn [parsePositionData lookup list_lookup go_bind].
    destruct (arrInterfaceToMap_returns fieldList) as (m & [e|] & Harr); rewrite Harr;
      cbn [go_bind].
    + eexists. eexists. reflexivity.
    + destruct (getTimeFromPosition now b (clock st)) as [t clock']. apply IH, Hrest.
Qed.

(** The decoder returns, with records or with an error, on every response
    whose arrays at the level of keys and of entries have at least two
    elements, whatever the elements are: the loop over a field list never
    reads past its end. *)
Theorem toRecords_returns (resp : list reply) :
  sized resp = true ->
  exists recs err, toRecords resp = Ret (recs, err).
Proof.
  intros Hs.
  assert (H : forall st, exists st' err, toRecords_keys resp st = Ret (st', err)).
  { induction resp as [|iKey rest IH]; intros st.
    - eexists. eexists. reflexivity.
    - unfold sized in Hs. cbn [forallb] in Hs. apply andb_prop in Hs as [Hk Hrest].
      cbn [Decode.toRecords_keys].
      destruct iKey as [| | | |keyInfo|]; try (eexists; eexists; reflexivity).
      unfold sized_key, entry_list in Hk. apply andb_prop in Hk as [Hlen Hent].
      destruct keyInfo as [|k0 [|k1 more]]; try discriminate Hlen.
      destruct k0; try (eexists; eexists; reflexivity).
      destruct k1 as [| | | |idList|]; try (eexists; eexists; reflexivity).
      cbn [parseKeyData lookup list_lookup go_bind]. cbn [lookup list_lookup] in Hent.
      edestruct (toRecords_ids_returns b (length (mdheap st)) idList) as (st1 & [e|] & Hids);
        [exact Hent| |]; rewrite Hids; cbn [go_bind].
      + eexists. eexists. reflexivity.
      + apply IH, Hrest. }
  destruct (H decoder_init) as (st' & err & Hrun).
  exists (records st'), err. unfold Decode.toRecords. rewrite Hrun. reflexivity.
Qed.

(** *** A field list and its map *)

Lemma field_list_of_wf pairs : wf_fields (field_list_of pairs) = true.
Proof.
  unfold wf_fields. apply andb_true_intro. split.
  - apply Nat.eqb_eq. induction pairs as [|kv rest IH]; [reflexivity|].
    cbn [field_list_of flat_map app length] in *. rewrite mod2_SS. exact IH.
  - induction pairs as [|kv rest IH]; [reflexivity|]. exact IH.
Qed.

Lemma field_pairs_of pairs : field_pairs (field_list_of pairs) = pairs.
Proof.
  induction pairs as [|[k v] rest IH]; [reflexivity|].
  cbn [field_list_of flat_map app field_pairs fst snd]. f_equal. exact IH.
Qed.

Lemma foldl_insert_list_to_map (pairs : list (string * string)) :
  NoDup (pairs.*1) ->
  foldl (fun m kv => <[kv.1 := kv.2]> m) (∅ : gmap string string) pairs = list_to_map pairs.
Proof.
  induction pairs as [|[k v] l IH] using rev_ind; intros Hnd; [reflexivity|].
  rewrite fmap_app in Hnd. apply NoDup_app in Hnd as (Hl & Hdisj & _).
  rewrite foldl_app. cbn [foldl fst snd]. rewrite (IH Hl).
  symmetry. apply list_to_map_snoc.
  intros Hin. apply (Hdisj k Hin). constructor.
Qed.

(** A field list that carries pairs of distinct names decodes to the map of
    exactly those pairs: nothing is lost and nothing added. *)
Theorem field_list_round_trip (pairs : list (string * string)) :
  NoDup (pairs.*1) ->
  exists m : gmap string string,
    arrInterfaceToMap (field_list_of pairs) = Ret (m, None) /\
    map_to_list m ≡ₚ pairs /\
    size m = length pairs /\
    forall k v, m !! k = Some v <-> (k, v) ∈ pairs.
Proof.
  intros Hnd. exists (list_to_map pairs).
  split.
  - rewrite (arrInterfaceToMap_wf _ (field_list_of_wf pairs)), field_pairs_of.
    rewrite (foldl_insert_list_to_map pairs Hnd). reflexivity.
  - split; [apply map_to_list_to_map, Hnd|].
    split; [apply map_size_list_to_map, Hnd|].
    intros k v. symmetry. apply elem_of_list_to_map, Hnd.
Qed.

(** *** The creation time *)

Lemma parse_digits_nonneg s :
  forall acc n, (0 <= acc)%Z -> parse_digits s acc = Some n -> (0 <= n)%Z.
Proof.
  induction s as [|c s IH]; intros acc n Hacc H; cbn in H.
  - injection H as <-. exact Hacc.
  - destruct (digit_of c) as [d|] eqn:Hd; [|discriminate].
    eapply IH; [|exact H].
    unfold digit_of in Hd. destruct (_ && _); [|discriminate]. injection Hd as <-. lia.
Qed.

Lemma digit_not_sign c d :
  digit_of c = Some d -> Ascii.eqb c "+" = false /\ Ascii.eqb c "-" = false.
Proof.
  unfold digit_of. intros H.
  destruct (Ascii.eqb_spec c "+") as [->|_]; [discriminate H|].
  destruct (Ascii.eqb_spec c "-") as [->|_]; [discriminate H|].
  split; reflexivity.
Qed.

Lemma ParseInt_of_uint64 s ms :
  StreamID.parse_uint64 s = Some ms ->
  strconv_ParseInt s = if (ms <=? int64_max)%Z then Some ms else None.
Proof.
  unfold StreamID.parse_uint64, strconv_ParseInt.
  destruct s as [|c rest]; [discriminate|].
  destruct (parse_digits (String c rest) 0) as [n|] eqn:Hp; [|discriminate].
  destruct (n <=? StreamID.uint64_max)%Z; [|discriminate].
  intros H. injection H as ->.
  pose proof (parse_digits_nonneg _ _ _ (Z.le_refl 0) Hp) as Hnn.
  pose proof Hp as Hp'. cbn [parse_digits] in Hp'.
  destruct (digit_of c) as [d|] eqn:Hd; [|discriminate].
  destruct (digit_not_sign c d Hd) as [-> ->]. rewrite Hp.
  replace (int64_min <=? ms)%Z with true; [reflexivity|].
  symmetry. apply Z.leb_le. unfold int64_min. lia.
Qed.

(** The creation time of a record is the millisecond part of its entry
    identifier when that part is a positive number that fits in 64 signed
    bits, read without the clock; an identifier whose millisecond part is
    zero or larger than that gets the wall clock. *)
Theorem getTimeFromPosition_of_id (pos : string) (ms seq : Z) (clk : nat) :
  StreamID.parse pos = Some (ms, seq) ->
  getTimeFromPosition now pos clk
  = if ((0 <? ms) && (ms <=? int64_max))%Z then (ms, clk) else (now clk, S clk).
Proof.
  unfold StreamID.parse, getTimeFromPosition.
  destruct (StreamID.parse_uint64 (before_dash pos)) as [ms'|] eqn:Hms; [|discriminate].
  intros H.
  assert (ms' = ms) as ->.
  { destruct (StreamID.after_dash pos) as [q|]; [|congruence].
    destruct (StreamID.parse_uint64 q); congruence. }
  rewrite (ParseInt_of_uint64 _ _ Hms).
  assert (Hnn : (0 <= ms)%Z).
  { unfold StreamID.parse_uint64 in Hms. destruct (before_dash pos); [discriminate|].
    destruct (parse_digits _ 0) as [n|] eqn:Hp; [|discriminate].
    destruct (n <=? StreamID.uint64_max)%Z; [|discriminate]. injection Hms as <-.
    eapply parse_digits_nonneg; [|exact Hp]. lia. }
  destruct (ms <=? int64_max)%Z; [|rewrite andb_false_r; reflexivity].
  rewrite andb_true_r.
  destruct (Z.eqb_spec ms 0) as [->|Hne]; [reflexivity|].
  replace (0 <? ms)%Z with true; [reflexivity|]. symmetry. apply Z.ltb_lt. lia.
Qed.

(** *** The metadata of the records of one key *)

Lemma toRecords_ids_metadata key ref idList :
  forall st md,
    forallb wf_entry idList = true ->
    mdheap st !! ref = Some md ->
    exists st' md',
      toRecords_ids key ref idList st = Ret (st', None) /\
      (exists new,
          records st' = records st ++ new /\ length new = length idList /\
          Forall (fun r => MetadataRef r = Some ref /\ Key r = key) new) /\
      length (mdheap st') = length (mdheap st) /\
      mdheap st' !! ref = Some md' /\
      md_key md' = md_key md /\
      match last (omap id_of_entry idList) with
      | Some p => exists clk, md_createdAt md' = Some (getTimeFromPosition now p clk).1
      | None => md' = md
      end.
Proof.
  induction idList as [|iID rest IH]; intros st md Hwf Hmd.
  - exists st, md. split; [reflexivity|].
    split; [exists []; rewrite app_nil_r; repeat split; constructor|].
    repeat split; assumption.
  - cbn [forallb] in Hwf. apply andb_prop in Hwf as [He Hrest].
    destruct iID as [| | | |idInfo|]; try discriminate He.
    destruct idInfo as [|[| | |position| |] [|[| | | |fieldList|] [|]]]; try discriminate He.
    cbn [wf_entry] in He. apply andb_prop in He as [_ Hf].
    cbn [Decode.toRecords_ids parsePositionData lookup list_lookup go_bind].
    rewrite (arrInterfaceToMap_wf _ Hf). cbn [go_bind].
    destruct (getTimeFromPosition now position (clock st)) as [t clock'] eqn:Ht.
    set (st1 := MkDecoder _ _ _).
    assert (Hmd1 : mdheap st1 !! ref = Some (Metadata (md_key md) (Some t))).
    { unfold st1, SetCreatedAt. cbn [mdheap]. rewrite list_lookup_alter_eq, Hmd. reflexivity. }
    destruct (IH st1 _ Hrest Hmd1) as (st' & md' & Hrun & (new & Hnew & Hlen & Hall) & Hh & Hl & Hk & Hlast).
    exists st', md'. split; [exact Hrun|].
    split.
    { exists (MkRecord position (Some ref) key (Some (json_Marshal json_quote
               (foldl (fun m kv => <[kv.1 := kv.2]> m) ∅ (field_pairs fieldList)))) :: new).
      split; [rewrite Hnew; unfold st1; cbn [records]; rewrite <- app_assoc; reflexivity|].
      split; [cbn [length]; rewrite Hlen; reflexivity|].
      constructor; [split; reflexivity|exact Hall]. }
    split; [rewrite Hh; unfold st1, SetCreatedAt; cbn [mdheap]; apply length_alter|].
    split; [exact Hl|]. split; [exact Hk|].
    change (omap id_of_entry (RArr [RBulk position; RArr fieldList] :: rest))
      with (position :: omap id_of_entry rest).
    rewrite last_cons. destruct (last (omap id_of_entry rest)) as [p|]; [exact Hlast|].
    subst md'. exists (clock st). rewrite Ht. reflexivity.
Qed.

(** The records decoded from the entries of a key all refer to one metadata
    map, the one made for the key; when decoding is over that map holds the
    creation time of the last entry, whatever the times of the entries
    before it. *)
Theorem metadata_shared (key : string) (idList : list reply) :
  forallb wf_entry idList = true ->
  exists recs md,
    toRecords [RArr [RBulk key; RArr idList]] = Ret (recs, None) /\
    toRecords_heap [RArr [RBulk key; RArr idList]] = Ret [md] /\
    length recs = length idList /\
    Forall (fun r => MetadataRef r = Some 0 /\ Key r = key) recs /\
    md_key md = key /\
    match last (omap id_of_entry idList) with
    | Some p => exists clk, md_createdAt md = Some (getTimeFromPosition now p clk).1
    | None => md_createdAt md = None
    end.
Proof.
  intros Hwf.
  destruct (toRecords_ids_metadata key 0 idList
              (MkDecoder [] [Metadata key None] 0) (Metadata key None) Hwf eq_refl)
    as (st' & md' & Hrun & (new & Hnew & Hlen & Hall) & Hh & Hl & Hk & Hlast).
  exists (records st'), md'.
  unfold Decode.toRecords, Decode.toRecords_heap.
  cbn [Decode.toRecords_keys parseKeyData lookup list_lookup go_bind decoder_init
       records mdheap clock length app].
  rewrite Hrun. cbn [go_bind].
  split; [reflexivity|].
  split.
  { f_equal. cbn [mdheap length] in Hh.
    destruct (mdheap st') as [|x [|y l]]; try discriminate Hh.
    cbn in Hl. injection Hl as ->. reflexivity. }
  cbn [records app] in Hnew. rewrite Hnew.
  split; [exact Hlen|]. split; [exact Hall|]. split; [exact Hk|].
  destruct (last (omap id_of_entry idList)); [exact Hlast|]. subst md'. reflexivity.
Qed.

End WithLibraries.

Lemma metadata_shared_witness :
  exists recs,
    Decode.toRecords Samples.quote Samples.now
      [RArr [RBulk "mystream";
             RArr [Samples.entry "1700000000000-0" ["a"; "1"];
                   Samples.entry "1700000000005-0" ["a"; "2"]]]]
    = Ret (recs, None) /\
    List.map MetadataRef recs = [Some 0; Some 0] /\
    Decode.toRecords_heap Samples.quote Samples.now
      [RArr [RBulk "mystream";
             RArr [Samples.entry "1700000000000-0" ["a"; "1"];
                   Samples.entry "1700000000005-0" ["a"; "2"]]]]
    = Ret [Metadata "mystream" (Some 1700000000005%Z)].
Proof.
  destruct (metadata_shared Samples.quote Samples.now "mystream"
              [Samples.entry "1700000000000-0" ["a"; "1"];
               Samples.entry "1700000000005-0" ["a"; "2"]] eq_refl)
    as (recs & md & Hrecs & _ & _ & _ & _ & _).
  exists recs. split; [exact Hrecs|].
  vm_compute in Hrecs. injection Hrecs as <-. split; reflexivity.
Defined.

Lemma field_list_round_trip_witness :
  exists m : gmap string string,
    arrInterfaceToMap [RBulk "name"; RBulk "ada"; RBulk "age"; RBulk "36"] = Ret (m, None) /\
    size m = 2.
Proof.
  destruct (field_list_round_trip [("name", "ada"); ("age", "36")]%string)
    as (m & Hm & _ & Hsize & _).
  - repeat constructor; set_solver.
  - exists m. split; [exact Hm|exact Hsize].
Defined.

Lemma getTimeFromPosition_of_id_witness :
  getTimeFromPosition Samples.now "1700000000000-3" 0 = (1700000000000%Z, 0) /\
  getTimeFromPosition Samples.now "0-1" 0 = (Samples.now 0, 1).
Proof.
  split.
  - apply (getTimeFromPosition_of_id Samples.now "1700000000000-3" 1700000000000 3 0).
    reflexivity.
  - apply (getTimeFromPosition_of_id Samples.now "0-1" 0 1 0). reflexivity.
Defined.

Lemma toRecords_returns_witness :
  exists recs err,
    Decode.toRecords Samples.quote Samples.now
      [RArr [RInt 7; RNil]; RArr [RBulk "k"; RArr [RArr [RBulk "1-0"; RArr [RNil]]]]]
    = Ret (recs, err).
Proof.
  apply (toRecords_returns Samples.quote Samples.now). reflexivity.
Defined.

End DecodeExtras.

(** ** More on the stream iterator *)

Module StreamExtras.

Import Decode Response Stream StreamProps.

(** *** After a failure, after Stop *)

Lemma Kill_keeps_error e r tb :
  Tomb.why tb = Tomb.Reason (Some e) -> Tomb.Kill r tb = tb.
Proof. unfold Tomb.Kill. intros ->. reflexivity. Qed.

(** The first failure is the one reported: when the poll goroutine has
    returned an error on a live tomb, a later [Stop] leaves that error as the
    tomb's reason, and [Next] returns it, not "iterator stopped". *)
Theorem first_failure_is_reported (i i2 : StreamIterator) (e : error)
    (err : option error) (c : conn) :
  Tomb.Alive (tomb i) = true ->
  Stop (poll_exit (Some e) i).1 = Ret (i2, err, c) ->
  Tomb.Err (tomb i2) = Some e /\
  HasNext i2 = true /\
  Next None i2 i2 zero_record (Some e).
Proof.
  intros Halive Hstop.
  assert (Hwhy : Tomb.why (tomb (poll_exit (Some e) i).1) = Tomb.Reason (Some e)).
  { cbn. unfold Tomb.run_returned. rewrite orb_true_r. unfold Tomb.Kill, Tomb.Alive in *.
    cbn. destruct (Tomb.why (tomb i)); [reflexivity|discriminate]. }
  assert (Htomb : tomb i2 = tomb (poll_exit (Some e) i).1).
  { revert Hstop. unfold Stop. cbn [ticker set_ticker set_tomb client tomb].
    rewrite (Kill_keeps_error e _ _ Hwhy).
    destruct (client _) as [c0|]; [|discriminate]. cbn.
    destruct (close_answer c0); intros H; injection H as <- _ _; reflexivity. }
  assert (Herr : Tomb.Err (tomb i2) = Some e).
  { rewrite Htomb. unfold Tomb.Err. rewrite Hwhy. reflexivity. }
  assert (Hdying : Tomb.Dying (tomb i2) = true).
  { rewrite Htomb. unfold Tomb.Dying, Tomb.Alive. rewrite Hwhy. reflexivity. }
  split; [exact Herr|]. split.
  - unfold HasNext. unfold Tomb.Dying in Hdying. rewrite Hdying. apply orb_true_r.
  - rewrite <- Herr. apply Next_dying, Hdying.
Qed.

Section WithLibraries.

Variable json_quote : string -> string.
Variable now : nat -> Z.

Abbreviation poll_tick := (Stream.poll_tick json_quote now).
Abbreviation step := (Stream.step json_quote now).
Abbreviation steps := (Stream.steps json_quote now).
Abbreviation run := (Stream.run json_quote now).

(** *** The records in flight form a queue *)

(** While the tomb is alive a step of the pipeline leaves the records in
    flight as they are, or takes the oldest of them out (the consumer's
    [Next]), or puts the batch that the poll goroutine hands off behind
    them: records are never reordered, dropped or repeated on their way. *)
Theorem in_flight_is_a_queue (s s' : pipeline) :
  step s s' ->
  Tomb.Alive (tomb (it s)) = true ->
  in_flight_records s' = in_flight_records s \/
  (exists rec, in_flight_records s = rec :: in_flight_records s') \/
  (exists recs, poll s = AtHandoff recs /\
                in_flight_records s' = in_flight_records s ++ recs).
Proof.
  unfold in_flight_records. intros Hstep.
  destruct Hstep; cbn [it poll flush flush_rest]; intros Halive;
    try (unfold Tomb.Dying in *; rewrite Halive in *; discriminate).
  - left. reflexivity.
  - left. reflexivity.
  - left. match goal with H : Stream.poll_tick _ _ _ = _ |- _ =>
      apply poll_tick_frame in H; destruct H as (-> & -> & _) end. reflexivity.
  - right. right.
    match goal with H : poll_send ?recs _ = _ |- _ =>
      exists recs; split; [reflexivity|]; unfold poll_send in H;
      destruct (last recs); injection H as <- _ end;
      cbn; rewrite concat_app; cbn; rewrite app_nil_r, !app_assoc; reflexivity.
  - left. match goal with H : poll_exit _ _ = _ |- _ => injection H as <- _ end.
    reflexivity.
  - left. match goal with H : flush_recv _ = _ |- _ => unfold flush_recv in H;
      destruct (items (caches i)) as [|cache more] eqn:Hi; injection H as <- <- end.
    + rewrite Hi. reflexivity.
    + cbn. destruct cache; reflexivity.
  - left. match goal with H : flush_send _ _ _ = _ |- _ => injection H as <- <- end.
    cbn. destruct rest; cbn; rewrite <- !app_assoc; reflexivity.
  - left. match goal with H : flush_exit _ _ = _ |- _ => injection H as <- <- end.
    reflexivity.
  - match goal with H : Next _ _ _ _ _ |- _ => destruct H as [i0 rec rest Hi| | |] end;
      try (left; reflexivity).
    right. left. exists rec. rewrite Hi. reflexivity.
  - left. match goal with H : Stop _ = _ |- _ =>
      apply Stop_frame in H; destruct H as (-> & -> & _) end. reflexivity.
Qed.

(** *** Who writes the cursor *)

(** A step of the pipeline leaves the cursor as it is, unless it is the
    send of the poll goroutine's handoff, which puts the batch in the
    channel and sets the cursor to the position of its last record: no
    other goroutine, no failure and no [Stop] moves the cursor. *)
Theorem cursor_written_at_handoff (s s' : pipeline) :
  step s s' ->
  lastID (it s') = lastID (it s) \/
  exists recs r,
    poll s = AtHandoff recs /\ last recs = Some r /\
    lastID (it s') = Position r /\
    items (caches (it s')) = items (caches (it s)) ++ [recs].
Proof.
  intros Hstep. destruct Hstep; cbn [it poll];
    try (left; reflexivity);
    try (left; match goal with H : _ = (_, _) |- _ => injection H as <- _ end; reflexivity).
  - left. match goal with H : Stream.poll_tick _ _ _ = _ |- _ =>
      apply poll_tick_frame in H; destruct H as (_ & _ & -> & _) end. reflexivity.
  - match goal with H : poll_send ?recs _ = _ |- _ => unfold poll_send in H;
      destruct (last recs) as [r|] eqn:Hlast; injection H as <- _;
      [right; exists recs, r; repeat split; try reflexivity; exact Hlast
      |left; reflexivity] end.
  - left. match goal with H : flush_recv _ = _ |- _ => unfold flush_recv in H;
      destruct (items (caches i)); injection H as <- _ end; reflexivity.
  - left. match goal with H : Next _ _ _ _ _ |- _ => destruct H end; reflexivity.
  - left. match goal with H : Stop _ = _ |- _ =>
      apply Stop_frame in H; destruct H as (_ & _ & ->) end. reflexivity.
Qed.

(** *** What a poll cycle asks *)

Lemma poll_tick_sends i c :
  client i = Some c ->
  exists c',
    client (poll_tick i).1 = Some c' /\
    sent c' = sent c ++ [xread_command i].
Proof.
  intros Hc. unfold Stream.poll_tick. rewrite Hc. cbn [conn_Do].
  exists (Conn (answers c) (sent c ++ [xread_command i]) (with_context c)
            (close_answer c) (closed c)).
  destruct (redis_Values _) as [resp [e|]].
  - destruct (error_beq e redis_ErrNil); split; reflexivity.
  - destruct (Stream.toRecords _ _ resp) as [[recs [e|]]|msg]; split; reflexivity.
Qed.

(** The first read of an iterator asks, right after the type of the key,
    for up to 1000 entries of the key after the position it was opened
    with, and after "0-0" when that position is empty. *)
Theorem first_read_after_position (client0 : conn) (key0 : string) (interval : Z)
    (position : string) (i : StreamIterator) (p : poll_pc) (f : flush_pc) :
  NewStreamIterator client0 key0 interval position = Ret (Started i p f) ->
  exists c',
    client (poll_tick i).1 = Some c' /\
    sent c'
    = sent client0 ++
      [Cmd "TYPE" [AStr key0];
       Cmd "XREAD" [AStr "COUNT"; AInt 1000; AStr "STREAMS"; AStr key0;
                    AStr (if String.eqb position "" then "0-0" else position)]].
Proof.
  unfold NewStreamIterator. cbn [conn_Do].
  destruct (redis_String _) as [keyType [e|]]; [discriminate|].
  destruct (negb _ && negb _); [discriminate|].
  destruct (interval <=? 0)%Z; [discriminate|].
  intros H. injection H as <- _ _.
  match goal with |- context [Stream.poll_tick _ _ ?i0] =>
    destruct (poll_tick_sends i0 _ eq_refl) as (c' & Hc & Hs) end.
  exists c'. split; [exact Hc|]. rewrite Hs. cbn. rewrite <- app_assoc. reflexivity.
Qed.

(** After a handoff the next read asks for the entries after the position
    of the last record handed off, with the same key and count. *)
Theorem next_read_after_last_record (i i2 : StreamIterator) (recs : list record) (c : conn) :
  client i = Some c ->
  poll_send recs i = (i2, AtSelect) ->
  exists r c',
    last recs = Some r /\
    client (poll_tick i2).1 = Some c' /\
    sent c'
    = sent c ++
      [Cmd "XREAD" [AStr "COUNT"; AInt (Z.of_nat (recordsPerCall i)); AStr "STREAMS";
                    AStr (key i); AStr (Position r)]].
Proof.
  intros Hc. unfold poll_send. destruct (last recs) as [r|]; [|discriminate].
  intros H. injection H as <-.
  edestruct (poll_tick_sends (set_lastID (Position r)
                                (set_caches (chan_send recs (caches i)) i)) c)
    as (c' & Hc' & Hs); [exact Hc|].
  exists r, c'. split; [reflexivity|]. split; [exact Hc'|exact Hs].
Qed.

(** *** A read that fails, a read that finds nothing *)

(** A nil answer to a read is no failure: the poll goroutine is back at its
    [select] with the cursor, the channels and the tomb as they were.  Any
    other error of the read ends the goroutine: it returns the error wrapped
    as "error reading data from stream", the batch channel is closed, the
    tomb holds that error, [HasNext] is true and [Next] returns the
    error. *)
Theorem read_outcomes (i : StreamIterator) (c : conn) :
  client i = Some c ->
  Tomb.Alive (tomb i) = true ->
  (answers c (length (sent c)) = inl RNil ->
   (poll_tick i).2 = AtSelect /\
   lastID (poll_tick i).1 = lastID i /\
   HasNext (poll_tick i).1 = HasNext i) /\
  (forall e,
      answers c (length (sent c)) = inr e ->
      error_beq e redis_ErrNil = false ->
      exists i1 i2,
        poll_tick i = (i1, Returned (Some (ErrWrap "error reading data from stream: " e))) /\
        poll_exit (Some (ErrWrap "error reading data from stream: " e)) i1 = (i2, Exited) /\
        lastID i2 = lastID i /\
        chan_closed (caches i2) = true /\
        HasNext i2 = true /\
        Next None i2 i2 zero_record
          (Some (ErrWrap "error reading data from stream: " e))).
Proof.
  intros Hc Halive. split.
  - intros Ha. unfold Stream.poll_tick. rewrite Hc. cbn [conn_Do]. rewrite Ha.
    repeat split.
  - intros e Ha He.
    assert (Ht : poll_tick i
                 = (set_client (Some (conn_Do c "XREAD" (cmd_args (xread_command i))).2) i,
                    Returned (Some (ErrWrap "error reading data from stream: " e)))).
    { unfold Stream.poll_tick. rewrite Hc. cbn [conn_Do snd]. rewrite Ha.
      cbn [redis_Values]. rewrite He. reflexivity. }
    eexists. eexists. split; [exact Ht|]. split; [reflexivity|].
    assert (Hwhy : forall n, Tomb.run_returned
                     (Some (ErrWrap "error reading data from stream: " e))
                     (Tomb.MkTomb n Tomb.StillAlive)
                   = Tomb.MkTomb (pred n)
                       (Tomb.Reason (Some (ErrWrap "error reading data from stream: " e)))).
    { intros n. unfold Tomb.run_returned. rewrite orb_true_r. reflexivity. }
    destruct i as [k cl [n why] lid rpc pint tk ca bu]. cbn in *.
    unfold Tomb.Alive in Halive. cbn in Halive. destruct why; [|discriminate].
    split; [reflexivity|]. split; [reflexivity|].
    unfold HasNext. cbn. rewrite Hwhy.
    split; [apply orb_true_r|].
    apply (Next_dying None
             (MkStreamIterator k _ (Tomb.MkTomb (pred n) (Tomb.Reason (Some _)))
                lid rpc pint tk (chan_close ca) bu)).
    reflexivity.
Qed.

(** *** Stop and the two goroutines *)

(** After [Stop] on a live iterator both goroutines can leave, wherever
    they wait (the poll goroutine also when it is blocked at the handoff):
    each takes the dying branch of its [select] and returns; then both
    channels are closed, the tomb counts no goroutine and holds "iterator
    stopped". *)
Theorem Stop_lets_both_goroutines_exit (i : StreamIterator) (c : conn)
    (p : poll_pc) (f : flush_pc) :
  client i = Some c ->
  close_answer c = None ->
  tomb i = Tomb.MkTomb 2 Tomb.StillAlive ->
  (p = AtSelect \/ exists recs, p = AtHandoff recs) ->
  flush_running f = true ->
  exists s',
    run [CallStop; PollDying; PollExit; FlushDying; FlushExit] (MkPipeline i p f) = Some s' /\
    steps (MkPipeline i p f) s' /\
    poll s' = Exited /\ flush s' = FExited /\
    chan_closed (caches (it s')) = true /\
    chan_closed (buffer (it s')) = true /\
    tomb (it s') = Tomb.MkTomb 0 (Tomb.Reason (Some err_stopped)) /\
    lastID (it s') = lastID i /\
    client (it s') = None.
Proof.
  intros Hc Hclose Htomb Hp Hf.
  assert (Hrun : exists s',
             run [CallStop; PollDying; PollExit; FlushDying; FlushExit] (MkPipeline i p f)
             = Some s' /\
             poll s' = Exited /\ flush s' = FExited /\
             chan_closed (caches (it s')) = true /\
             chan_closed (buffer (it s')) = true /\
             tomb (it s') = Tomb.MkTomb 0 (Tomb.Reason (Some err_stopped)) /\
             lastID (it s') = lastID i /\
             client (it s') = None).
  { destruct i as [k cl tb lid rpc pint tk ca bu]. cbn in Hc, Htomb. subst cl tb.
    cbn [Stream.run Stream.exec it poll flush]. unfold Stop.
    cbn [ticker set_ticker set_tomb client tomb conn_Close].
    rewrite Hclose. cbn [Tomb.Kill Tomb.why set_client].
    destruct Hp as [->|[recs ->]];
      destruct f; try discriminate Hf;
      cbn; eexists; repeat split. }
  destruct Hrun as (s' & Hrun & Hrest).
  exists s'. split; [exact Hrun|]. split; [|exact Hrest].
  eapply run_steps, Hrun.
Qed.

(** [Stop] does not take a tick that is already waiting out of the ticker's
    channel: if the poll goroutine then takes the ticker branch of its
    [select], it calls [Do] on the nil client and faults. *)
Theorem tick_after_Stop_faults (i : StreamIterator) (c : conn) (f : flush_pc) :
  client i = Some c ->
  close_answer c = None ->
  pending (ticker i) = true ->
  exists s',
    run [CallStop; PollTick] (MkPipeline i AtSelect f) = Some s' /\
    steps (MkPipeline i AtSelect f) s' /\
    poll s' = Faulted nil_dereference.
Proof.
  intros Hc Hclose Hp.
  assert (Hrun : exists s',
             run [CallStop; PollTick] (MkPipeline i AtSelect f) = Some s' /\
             poll s' = Faulted nil_dereference).
  { destruct i as [k cl tb lid rpc pint [stopped pend] ca bu]. cbn in Hc, Hp. subst cl pend.
    cbn [Stream.run Stream.exec it poll flush]. unfold Stop.
    cbn [ticker set_ticker set_tomb client tomb conn_Close pending].
    rewrite Hclose. cbn. eexists. split; reflexivity. }
  destruct Hrun as (s' & Hrun & Hrest).
  exists s'. split; [exact Hrun|]. split; [|exact Hrest].
  eapply run_steps, Hrun.
Qed.

End WithLibraries.

Import Samples.

Lemma first_failure_is_reported_witness :
  exists i2,
    Tomb.Err (tomb i2) = Some (ErrNew "boom") /\
    HasNext i2 = true /\
    Next None i2 i2 zero_record (Some (ErrNew "boom")).
Proof.
  eexists.
  eapply (first_failure_is_reported (started later_entry "5-0") _ (ErrNew "boom"));
    reflexivity.
Defined.

Lemma in_flight_is_a_queue_witness :
  in_flight_records (after [Clock; PollTick; PollSend] (started three_batches "0-0"))
  = in_flight_records (after [Clock; PollTick] (started three_batches "0-0")) \/
  (exists rec,
      in_flight_records (after [Clock; PollTick] (started three_batches "0-0"))
      = rec :: in_flight_records (after [Clock; PollTick; PollSend]
                                    (started three_batches "0-0"))) \/
  (exists recs,
      poll (after [Clock; PollTick] (started three_batches "0-0")) = AtHandoff recs /\
      in_flight_records (after [Clock; PollTick; PollSend] (started three_batches "0-0"))
      = in_flight_records (after [Clock; PollTick] (started three_batches "0-0")) ++ recs).
Proof.
  apply (in_flight_is_a_queue quote now).
  - apply (exec_step quote now PollSend). vm_compute. reflexivity.
  - reflexivity.
Defined.

Lemma cursor_written_at_handoff_witness :
  lastID (it (after [Clock; PollTick; PollSend] (started three_batches "0-0")))
  = lastID (it (after [Clock; PollTick] (started three_batches "0-0"))) \/
  exists recs r,
    poll (after [Clock; PollTick] (started three_batches "0-0")) = AtHandoff recs /\
    last recs = Some r /\
    lastID (it (after [Clock; PollTick; PollSend] (started three_batches "0-0")))
    = Position r /\
    items (caches (it (after [Clock; PollTick; PollSend] (started three_batches "0-0"))))
    = items (caches (it (after [Clock; PollTick] (started three_batches "0-0")))) ++ [recs].
Proof.
  apply (cursor_written_at_handoff quote now).
  apply (exec_step quote now PollSend). vm_compute. reflexivity.
Defined.

Lemma first_read_after_position_witness :
  exists c',
    client (Stream.poll_tick quote now (started later_entry "0-0")).1 = Some c' /\
    sent c'
    = [Cmd "TYPE" [AStr "mystream"];
       Cmd "XREAD" [AStr "COUNT"; AInt 1000; AStr "STREAMS"; AStr "mystream"; AStr "0-0"]].
Proof.
  apply (first_read_after_position quote now later_entry "mystream" 1000 ""
           (started later_entry "0-0") AtSelect FAtSelect).
  reflexivity.
Defined.

Lemma next_read_after_last_record_witness :
  exists r c',
    last (batch_of (poll (after [Clock; PollTick] (started later_entry "5-0")))) = Some r /\
    client (Stream.poll_tick quote now
              (it (after [Clock; PollTick; PollSend] (started later_entry "5-0")))).1
    = Some c' /\
    List.map cmd_name (sent c') = ["TYPE"; "XREAD"; "XREAD"]%string /\
    last (sent c')
    = Some (Cmd "XREAD" [AStr "COUNT"; AInt 1000; AStr "STREAMS"; AStr "mystream";
                         AStr "6-0"]).
Proof.
  destruct (next_read_after_last_record quote now
              (it (after [Clock; PollTick] (started later_entry "5-0")))
              (it (after [Clock; PollTick; PollSend] (started later_entry "5-0")))
              (batch_of (poll (after [Clock; PollTick] (started later_entry "5-0"))))
              (conn_Do (conn_Do later_entry "TYPE" [AStr "mystream"]).2 "XREAD"
                 [AStr "COUNT"; AInt 1000; AStr "STREAMS"; AStr "mystream"; AStr "5-0"]).2)
    as (r & c' & Hlast & Hc & Hs).
  - reflexivity.
  - vm_compute. reflexivity.
  - exists r, c'. split; [exact Hlast|]. split; [exact Hc|].
    rewrite Hs. vm_compute in Hlast. injection Hlast as <-. split; reflexivity.
Defined.

Lemma read_outcomes_witness :
  (Stream.poll_tick quote now (started nothing_new "5-0")).2 = AtSelect /\
  exists i1 i2,
    Stream.poll_tick quote now (started broken_pipe "5-0")
    = (i1, Returned (Some (ErrWrap "error reading data from stream: "
                             (ErrNew "broken pipe")))) /\
    poll_exit (Some (ErrWrap "error reading data from stream: " (ErrNew "broken pipe"))) i1
    = (i2, Exited) /\
    HasNext i2 = true.
Proof.
  split.
  - apply (proj1 (read_outcomes quote now (started nothing_new "5-0")
                    (conn_Do nothing_new "TYPE" [AStr "mystream"]).2 eq_refl eq_refl)).
    reflexivity.
  - destruct (proj2 (read_outcomes quote now (started broken_pipe "5-0")
                       (conn_Do broken_pipe "TYPE" [AStr "mystream"]).2 eq_refl eq_refl)
                (ErrNew "broken pipe") eq_refl eq_refl)
      as (i1 & i2 & H1 & H2 & _ & _ & H3 & _).
    exists i1, i2. repeat split; assumption.
Defined.

Lemma Stop_lets_both_goroutines_exit_witness :
  exists s',
    Stream.run quote now [CallStop; PollDying; PollExit; FlushDying; FlushExit]
      (MkPipeline (started later_entry "5-0") (AtHandoff []) FAtSelect) = Some s' /\
    poll s' = Exited /\ flush s' = FExited /\
    tomb (it s') = Tomb.MkTomb 0 (Tomb.Reason (Some err_stopped)).
Proof.
  destruct (Stop_lets_both_goroutines_exit quote now (started later_entry "5-0")
              (conn_Do later_entry "TYPE" [AStr "mystream"]).2 (AtHandoff []) FAtSelect
              eq_refl eq_refl eq_refl (or_intror (ex_intro _ [] eq_refl)) eq_refl)
    as (s' & Hrun & _ & Hp & Hf & _ & _ & Ht & _).
  exists s'. repeat split; assumption.
Defined.

Lemma tick_after_Stop_faults_witness :
  exists s',
    Stream.run quote now [CallStop; PollTick]
      (MkPipeline (it (after [Clock] (started later_entry "5-0"))) AtSelect FAtSelect)
    = Some s' /\
    poll s' = Faulted nil_dereference.
Proof.
  destruct (tick_after_Stop_faults quote now (it (after [Clock] (started later_entry "5-0")))
              (conn_Do later_entry "TYPE" [AStr "mystream"]).2 FAtSelect
              eq_refl eq_refl eq_refl)
    as (s' & Hrun & _ & Hp).
  exists s'. split; assumption.
Defined.

End StreamExtras.

(** ** More on the source dispatcher *)

Module SourceExtras.

Import Source.

(** [Read] with nothing to deliver (the buffer empty, the tomb alive) does
    one thing only: it returns the backoff-retry error and leaves the source
    as it is.  Otherwise some branch of [Next] is ready, so [Read] has an
    outcome, and its outcomes are a record with a nil error or the zero
    record with an error that wraps the one of [Next]; it is never the
    backoff-retry error. *)
Theorem Read_backs_off_or_returns (ctx_done : option error) (s : Source) (i : Iterator) :
  iterator s = Some i ->
  (Iterator_HasNext i = false ->
   Read ctx_done s s (Ret (zero_record, Some ErrBackoffRetry)) /\
   forall s' out,
     Read ctx_done s s' out -> s' = s /\ out = Ret (zero_record, Some ErrBackoffRetry)) /\
  (Iterator_HasNext i = true ->
   (exists s' out, Read ctx_done s s' out) /\
   forall s' out,
     Read ctx_done s s' out ->
     (exists rec, out = Ret (rec, None)) \/
     (exists e, out = Ret (zero_record, Some (ErrWrap "error fetching next record: " e)))).
Proof.
  intros Hi. split.
  - intros Hno. split; [eapply Read_backoff; eassumption|].
    intros s' out HR. destruct HR as [s H|s i0 H H0|s i0 i' rec e H H0 H1|s i0 i' rec H H0 H1];
      rewrite Hi in H; try discriminate H; injection H as <-;
      try (rewrite Hno in H0; discriminate H0).
    split; reflexivity.
  - intros Hyes. split.
    + destruct i as [si]. cbn in Hyes. unfold Stream.HasNext in Hyes.
      apply orb_prop in Hyes as [Hbuf|Hdead].
      * unfold chan_len in Hbuf.
        destruct (items (Stream.buffer si)) as [|rec rest] eqn:Hitems; [discriminate Hbuf|].
        eexists. eexists. eapply Read_record; [exact Hi| |].
        -- cbn. unfold Stream.HasNext, chan_len. rewrite Hitems. reflexivity.
        -- constructor. apply Stream.Next_record. exact Hitems.
      * assert (Hd : Tomb.Dying (Stream.tomb si) = true) by exact Hdead.
        assert (Hh : Iterator_HasNext (OfStream si) = true).
        { cbn. unfold Stream.HasNext. rewrite Hdead. apply orb_true_r. }
        destruct (Tomb.Err (Stream.tomb si)) as [e|] eqn:He.
        -- eexists. eexists. eapply Read_error; [exact Hi|exact Hh|].
           constructor. rewrite <- He. apply Stream.Next_dying, Hd.
        -- eexists. eexists. eapply Read_record; [exact Hi|exact Hh|].
           constructor. rewrite <- He. apply Stream.Next_dying, Hd.
    + intros s' out HR.
      destruct HR as [s H|s i0 H H0|s i0 i' rec e H H0 H1|s i0 i' rec H H0 H1];
        rewrite Hi in H; try discriminate H; injection H as <-.
      * rewrite Hyes in H0. discriminate H0.
      * right. eexists. reflexivity.
      * left. eexists. reflexivity.
Qed.

(** When [Close] fails, [Teardown] returns the error of [Stop] and keeps the
    iterator (stopped: ticker halted, tomb dying) with its connection, so
    that a second [Teardown] calls [Close] again and does not fault. *)
Theorem Teardown_keeps_iterator_on_error (cfg : Config.Config) (i : Stream.StreamIterator)
    (c : conn) (e : error) :
  Stream.client i = Some c ->
  close_answer c = Some e ->
  exists i' c',
    Teardown (MkSource cfg (Some (OfStream i)))
    = Ret (MkSource cfg (Some (OfStream i')),
           Some (ErrWrap "error closing the redis client: " e)) /\
    Stream.client i' = Some c' /\ closed c' = S (closed c) /\
    Stream.ticker_stopped (Stream.ticker i') = true /\
    Tomb.Dying (Stream.tomb i') = true /\
    exists i'' c'',
      Teardown (MkSource cfg (Some (OfStream i')))
      = Ret (MkSource cfg (Some (OfStream i'')),
             Some (ErrWrap "error closing the redis client: " e)) /\
      Stream.client i'' = Some c'' /\ closed c'' = S (S (closed c)).
Proof.
  intros Hc Hclose.
  unfold Teardown, Iterator_Stop. cbn [iterator].
  unfold Stream.Stop.
  cbn [Stream.ticker Stream.set_ticker Stream.set_tomb Stream.client Stream.tomb].
  rewrite Hc. cbn [conn_Close]. rewrite Hclose. cbn [go_bind].
  eexists. eexists. split; [reflexivity|].
  split; [reflexivity|]. split; [reflexivity|]. split; [reflexivity|].
  split; [unfold Tomb.Dying; cbn; rewrite StreamProps.Kill_not_alive; reflexivity|].
  cbn.
  eexists. eexists. split; [reflexivity|]. split; reflexivity.
Qed.

Lemma Read_backs_off_or_returns_witness :
  Read None (MkSource (Config.MkConfig "localhost" "6379" "mystream" 0 "" "" "stream" 1000)
               (Some (OfStream (Samples.started Samples.later_entry "5-0"))))
    (MkSource (Config.MkConfig "localhost" "6379" "mystream" 0 "" "" "stream" 1000)
       (Some (OfStream (Samples.started Samples.later_entry "5-0"))))
    (Ret (zero_record, Some ErrBackoffRetry)).
Proof.
  apply (proj1 (proj1 (Read_backs_off_or_returns None
                         (MkSource (Config.MkConfig "localhost" "6379" "mystream" 0 "" ""
                                      "stream" 1000)
                            (Some (OfStream (Samples.started Samples.later_entry "5-0"))))
                         (OfStream (Samples.started Samples.later_entry "5-0")) eq_refl)
                  eq_refl)).
Defined.

Lemma Teardown_keeps_iterator_on_error_witness :
  exists i' c',
    Teardown (MkSource Samples.stream_config
                (Some (OfStream (Samples.started Samples.close_fails "5-0"))))
    = Ret (MkSource Samples.stream_config (Some (OfStream i')),
           Some (ErrWrap "error closing the redis client: "
                   (ErrNew "use of closed network connection"))) /\
    Stream.client i' = Some c' /\ closed c' = 1.
Proof.
  destruct (Teardown_keeps_iterator_on_error Samples.stream_config
              (Samples.started Samples.close_fails "5-0")
              (conn_Do Samples.close_fails "TYPE" [AStr "mystream"]).2
              (ErrNew "use of closed network connection") eq_refl eq_refl)
    as (i' & c' & H1 & H2 & H3 & _).
  exists i', c'. repeat split; assumption.
Defined.

End SourceExtras.

(** ** More on the destination writer *)

Module DestinationExtras.

Import Config Destination DestinationProps.

(** In pubsub mode [validateKey] asks the store nothing and accepts.  In a
    mode that is neither pubsub nor stream, [validateKey] and [Write] return
    the invalid-mode error, [Write] with the count 0, and neither sends a
    command, whatever the records and whether or not a connection is
    held. *)
Theorem modes_without_commands (d : Destination) (c : conn) :
  (Mode (config d) = ModePubSub -> validateKey d c = (c, None)) /\
  (Mode (config d) <> ModePubSub -> Mode (config d) <> ModeStream ->
   validateKey d c = (c, Some (err_invalid_mode (Mode (config d)))) /\
   forall json_Unmarshal rec,
     Write json_Unmarshal d rec = Ret (d, 0, Some (err_invalid_mode (Mode (config d))))).
Proof.
  split.
  - intros Hm. unfold validateKey. rewrite Hm. reflexivity.
  - intros Hp Hs. unfold validateKey, Write.
    destruct (String.eqb_spec (Mode (config d)) ModePubSub) as [H|_]; [contradiction|].
    destruct (String.eqb_spec (Mode (config d)) ModeStream) as [H|_]; [contradiction|].
    split; reflexivity.
Qed.

(** [Open] keeps the connection it dialled also when the validation of the
    key fails; [Teardown] then closes it, once.  When the dial fails [Open]
    holds no connection and [Teardown] does nothing. *)
Theorem Open_then_Teardown (d : Destination) :
  client d = None ->
  (forall c, exists c',
      (Open d (inl c)).1 = set_client (Some c') d /\
      (Open d (inl c)).2 = (validateKey d c).2 /\
      closed c' = closed c /\ close_answer c' = close_answer c /\
      exists c'',
        Teardown (Open d (inl c)).1 = (set_client (Some c'') d, close_answer c) /\
        closed c'' = S (closed c)) /\
  (forall e,
      Open d (inr e) = (d, Some (ErrWrap "failed to connect redis client: " e)) /\
      Teardown (Open d (inr e)).1 = (d, None)).
Proof.
  intros Hnil. split.
  - intros c. unfold Open. destruct (validateKey d c) as [c' err] eqn:Hv.
    assert (Hc' : closed c' = closed c /\ close_answer c' = close_answer c).
    { revert Hv. unfold validateKey.
      destruct (String.eqb _ ModePubSub); [intros H; injection H as <- _; auto|].
      destruct (String.eqb _ ModeStream); [|intros H; injection H as <- _; auto].
      cbn [conn_Do]. destruct (redis_String _) as [kt [e|]].
      - intros H; injection H as <- _; auto.
      - destruct (negb _ && negb _); intros H; injection H as <- _; auto. }
    destruct Hc' as [Hcl Hca].
    exists c'. cbn [fst snd]. repeat split; try assumption.
    unfold Teardown. cbn [client set_client conn_Close].
    eexists. split; [rewrite Hca; reflexivity|]. cbn. rewrite Hcl. reflexivity.
  - intros e. cbn. unfold Teardown. rewrite Hnil. split; reflexivity.
Qed.

Section WithLibraries.

Variable json_Unmarshal : string -> list (string * jvalue) + error.

Abbreviation payloadToStreamArgs := (Destination.payloadToStreamArgs json_Unmarshal).
Abbreviation Write := (Destination.Write json_Unmarshal).
Abbreviation record_command := (Destination.record_command json_Unmarshal).
Abbreviation first_failure := (Destination.first_failure json_Unmarshal).

(** The arguments that [payloadToStreamArgs] returns without error are the
    members of the decoded object, each name followed by its value, in the
    order of the map's iteration: at least one pair, and twice as many
    arguments as members.  An object without members gives the error "no
    key-value pair received", a payload that does not decode the wrapped
    error of the decoder. *)
Theorem payloadToStreamArgs_pairs (payload : string) :
  match json_Unmarshal payload with
  | inr e =>
    payloadToStreamArgs (Some payload)
    = Ret ([], Some (ErrWrap "invalid json received in payload: " e))
  | inl [] =>
    payloadToStreamArgs (Some payload)
    = Ret ([], Some (ErrNew "no key-value pair received"))
  | inl members =>
    exists args,
      payloadToStreamArgs (Some payload) = Ret (args, None) /\
      length args = 2 * length members /\
      forall j k v,
        members !! j = Some (k, v) ->
        args !! (2 * j) = Some (AStr k) /\ args !! (2 * j + 1) = Some (AJson v)
  end.
Proof.
  unfold Destination.payloadToStreamArgs, Destination.streamArgs_of_bytes.
  cbn [Data_Bytes go_bind].
  destruct (json_Unmarshal payload) as [members|e]; [|reflexivity].
  destruct members as [|m0 rest]; [reflexivity|].
  eexists. split; [reflexivity|].
  generalize (m0 :: rest). clear. intros members. split.
  - induction members as [|kv l IH]; [reflexivity|].
    cbn [flat_map app length] in *. rewrite IH. lia.
  - induction members as [|kv l IH]; intros j k v Hj; [discriminate Hj|].
    destruct j as [|j].
    + injection Hj as ->. split; reflexivity.
    + cbn [flat_map app]. replace (2 * S j) with (S (S (2 * j))) by lia.
      replace (S (S (2 * j)) + 1) with (S (S (2 * j + 1))) by lia.
      cbn [lookup list_lookup]. apply IH. exact Hj.
Qed.

(** In pubsub mode, for records that each carry an After payload, when
    the store accepts every command, [Write] returns the number of records
    and has sent one PUBLISH per record, in order, to the configured key,
    with the bytes of the record's payload as they are.  On a connection
    without [DoContext] the key and the payload go as one argument, the
    argument slice itself. *)
Theorem Write_publishes_payloads (d : Destination) (c : conn) (rec : list record)
    (payloads : list string) :
  client d = Some c ->
  Mode (config d) = ModePubSub ->
  List.map PayloadAfter rec = List.map Some payloads ->
  (forall j, j < length rec -> accepted (answers c (length (sent c) + j)) = true) ->
  exists d' c',
    Write d rec = Ret (d', length rec, None) /\
    client d' = Some c' /\
    sent c'
    = sent c ++
      List.map (fun bytes =>
                  Cmd "PUBLISH"
                    (if with_context c
                     then [AStr (RedisKey (config d)); AStr bytes]
                     else [AArgs [AStr (RedisKey (config d)); AStr bytes]]))
        payloads.
Proof.
  intros Hc Hmode Hpayloads Hacc.
  assert (Hcmd : forall r bytes,
             PayloadAfter r = Some bytes ->
             record_command d c r
             = Some (Cmd "PUBLISH"
                       (if with_context c
                        then [AStr (RedisKey (config d)); AStr bytes]
                        else [AArgs [AStr (RedisKey (config d)); AStr bytes]]))).
  { intros r bytes Hb. unfold Destination.record_command. rewrite Hb, Hmode. reflexivity. }
  assert (Hpay : forallb has_payload rec = true).
  { clear -Hpayloads. revert payloads Hpayloads.
    induction rec as [|r rest IH]; intros [|b bs] H; try discriminate H; [reflexivity|].
    cbn [List.map] in H. injection H as Hr Hrest.
    cbn [forallb]. unfold has_payload at 1. rewrite Hr. exact (IH bs Hrest). }
  assert (Hsome : forall j r, rec !! j = Some r -> exists bytes, PayloadAfter r = Some bytes).
  { intros j r Hj. apply list_elem_of_lookup_2 in Hj.
    rewrite forallb_forall in Hpay. apply list_elem_of_In, Hpay in Hj.
    unfold has_payload in Hj. destruct (PayloadAfter r); [eexists; reflexivity|discriminate]. }
  assert (Hnone : first_failure d c (length (sent c)) rec = None).
  { apply first_failure_None. intros j r Hj. unfold Destination.applies.
    destruct (Hsome j r Hj) as [bytes Hb]. rewrite (Hcmd r bytes Hb).
    apply Hacc. apply lookup_lt_Some in Hj. exact Hj. }
  assert (Hcont : continues d c d c) by (repeat split; assumption).
  pose proof (Write_pubsub_counts json_Unmarshal d c rec Hmode Hpay 0 d c Hcont) as H.
  rewrite Hnone in H. destruct H as (d' & c' & Hrun & Hcont' & Hs).
  exists d', c'. unfold Destination.Write. rewrite Hmode.
  change (String.eqb ModePubSub ModePubSub) with true. cbn iota.
  rewrite Hrun. cbn [go_bind].
  split; [reflexivity|]. split; [apply Hcont'|].
  rewrite Hs. f_equal. clear -Hcmd Hpayloads. revert payloads Hpayloads.
  induction rec as [|r rest IH]; intros [|b bs] H; try discriminate H; [reflexivity|].
  cbn [List.map] in H. injection H as Hr Hrest.
  cbn [omap list_omap List.map]. rewrite (Hcmd r b Hr), (IH bs Hrest). reflexivity.
Qed.

End WithLibraries.

Lemma Open_then_Teardown_witness :
  exists c' c'',
    Open (MkDestination Samples.stream_config None) (inl Samples.type_hash)
    = (MkDestination Samples.stream_config (Some c'),
       Some (ErrNew "invalid key type: hash, expected none or stream")) /\
    Teardown (MkDestination Samples.stream_config (Some c'))
    = (MkDestination Samples.stream_config (Some c''), None) /\
    closed c'' = 1.
Proof.
  destruct (proj1 (Open_then_Teardown (MkDestination Samples.stream_config None) eq_refl)
              Samples.type_hash)
    as (c' & H1 & _ & _ & _ & c'' & H2 & H3).
  exists c', c''. split; [|split; [|exact H3]].
  - vm_compute in H1. injection H1 as <-. reflexivity.
  - vm_compute in H1. injection H1 as <-. exact H2.
Defined.

Lemma Write_publishes_payloads_witness :
  exists d' c',
    Destination.Write Samples.unmarshal
      (MkDestination Samples.pubsub_config
         (Some (Samples.scripted [inl (RInt 1); inl (RInt 0)])))
      [MkRecord "" None "" (Some "hello"); MkRecord "" None "" (Some "{not json")]
    = Ret (d', 2, None) /\
    client d' = Some c' /\
    sent c' = [Cmd "PUBLISH" [AStr "news"; AStr "hello"];
               Cmd "PUBLISH" [AStr "news"; AStr "{not json"]].
Proof.
  apply (Write_publishes_payloads Samples.unmarshal
           (MkDestination Samples.pubsub_config
              (Some (Samples.scripted [inl (RInt 1); inl (RInt 0)])))
           (Samples.scripted [inl (RInt 1); inl (RInt 0)])
           [MkRecord "" None "" (Some "hello"); MkRecord "" None "" (Some "{not json")]
           ["hello"; "{not json"]%string).
  - reflexivity.
  - reflexivity.
  - reflexivity.
  - intros j Hj. destruct j as [|[|j]]; [reflexivity|reflexivity|cbn in Hj; lia].
Defined.

End DestinationExtras.
